(** * MathsChat signaling server: room membership and relay protocol

    A shallow embedding of [SignalingServer.handle_client]
    (src/signaling_server/server.py) together with the properties of the
    room registry and of the per-connection message loop.

    - The coroutine is modelled at the granularity of its [await] points:
      between two awaits the code runs without interruption, so one step
      of the model executes the Python code from one await to the next, and
      any other connection task may run at every await.
    - [self.rooms] is a [gmap] from dictionary keys to [gset]s of
      connections; a connection is the identity of its websocket object.
    - The handler's input is what [json.loads] returns (or its failure);
      its output is the value handed to [json.dumps], addressed to a
      connection.  JSON numbers are integers: Python floats are not part
      of the model.
    - An [await ... send] either completes or raises; the end of
      [async for] (a closed channel) is an event of its own.
    - [list(s)] on a set is [elements s]; no property below depends on
      the order of that list. *)

From stdpp Require Import gmap strings list fin_maps relations.
From Stdlib Require Import ZArith.

Set Warnings "-clear-no-such-hyp".

Local Open Scope string_scope.

(** ** JSON values

    The values [json.loads] hands to the handler.  An object is the list
    of the items of the parsed [dict], whose keys are distinct. *)

#[warnings="-register-all"]
Inductive json : Type :=
| JNull
| JBool (b : bool)
| JInt (z : Z)
| JStr (s : string)
| JArr (elems : list json)
| JObj (items : list (string * json)).

(** Python truthiness, as used by [if not room] and [if not payload]. *)
Definition truthy (v : json) : bool :=
  match v with
  | JNull => false
  | JBool b => b
  | JInt z => negb (Z.eqb z 0%Z)
  | JStr s => negb (String.eqb s "")
  | JArr elems => match elems with [] => false | _ :: _ => true end
  | JObj items => match items with [] => false | _ :: _ => true end
  end.

(** [d.get(name)]: the value bound to [name], or [None] when absent. *)
Fixpoint dict_get (name : string) (items : list (string * json)) : json :=
  match items with
  | [] => JNull
  | (k, v) :: rest => if String.eqb k name then v else dict_get name rest
  end.

(** ** Dictionary keys

    [self.rooms] is a [dict]; a JSON value used as key must be hashable.
    Lists and dicts are not (TypeError); [True] and [1] are the same key,
    as are [False] and [0]. *)

Inductive key : Type :=
| KNone
| KInt (z : Z)
| KStr (s : string).

Definition hash_key (v : json) : option key :=
  match v with
  | JNull => Some KNone
  | JBool b => Some (KInt (if b then 1 else 0)%Z)
  | JInt z => Some (KInt z)
  | JStr s => Some (KStr s)
  | JArr _ | JObj _ => None
  end.

#[global] Instance key_eq_dec : EqDecision key.
Proof. solve_decision. Defined.

Definition key_to_sum (k : key) : unit + (Z + string) :=
  match k with
  | KNone => inl tt
  | KInt z => inr (inl z)
  | KStr s => inr (inr s)
  end.

Definition key_of_sum (s : unit + (Z + string)) : key :=
  match s with
  | inl _ => KNone
  | inr (inl z) => KInt z
  | inr (inr s) => KStr s
  end.

#[global] Instance key_countable : Countable key.
Proof.
  refine (inj_countable' key_to_sum key_of_sum _).
  intros []; reflexivity.
Defined.

(** ** Connections, registry, envelopes *)

(** A websocket object, compared by identity. *)
Definition conn : Type := nat.

(** [self.rooms]: room -> set of websocket connections. *)
Abbreviation registry := (gmap key (gset conn)).

Definition error_msg (text : string) : json :=
  JObj [("action", JStr "error"); ("error", JStr text)].

Definition joined_msg (room : json) (peer_count : nat) : json :=
  JObj [("action", JStr "joined"); ("room", room);
        ("peers", JInt (Z.of_nat peer_count))].

Definition peer_joined_msg (room : json) : json :=
  JObj [("action", JStr "peer_joined"); ("room", room)].

Definition relayed_msg (room payload : json) : json :=
  JObj [("action", JStr "relayed"); ("room", room); ("payload", payload)].

Definition peer_left_msg (room : json) : json :=
  JObj [("action", JStr "peer_left"); ("room", room)].

(** ** Exceptions and control state *)

Inductive exn : Type :=
| ConnectionClosed
| JSONDecodeError
| AttributeError
| TypeError
| KeyError
| OtherError.

(** Which loop a pending [peer.send] belongs to. *)
Inductive loop_ctx : Type :=
| InBody                         (* the peer loops of join and relay *)
| InLeave                        (* the peer loop of the leave branch *)
| InCleanup (pending : option exn). (* the peer loop of the finally block *)

(** The await the coroutine is suspended at. *)
Inductive pc : Type :=
| Receiving
| Replying (msg : json) (then_notify : bool)
| Notifying (peer : conn) (rest : list conn) (msg : json) (ctx : loop_ctx)
| Finished (exc : option exn).

(** The handler's local variable [room] and its control state. *)
Record local : Type := Local { room : json; at_pc : pc }.

Definition initial_local : local := Local JNull Receiving.

(** What the transport delivers: a frame [json.loads] rejects, or the
    value it parses to. *)
Inductive frame : Type :=
| Malformed
| Parsed (data : json).

(** The outcome of the await the coroutine is suspended at: the next
    frame or the end of the iteration for [async for], completion or an
    exception for [send]. *)
Inductive event : Type :=
| Frame (f : frame)
| Closed
| SendOk
| SendRaise (e : exn).

(** What a step put on the wire: a send that completed or one that raised. *)
Inductive obs : Type :=
| Delivered (target : conn) (msg : json)
| Failed (target : conn) (msg : json) (e : exn).

(** ** The handler *)

(** The [finally] block (lines 109-124), entered with the exception still
    propagating, if any. *)
Definition cleanup (websocket : conn) (room : json) (exc : option exn)
    (rooms : registry) : registry * pc :=
  if truthy room then
    match hash_key room with
    | None => (rooms, Finished (Some TypeError))
    | Some k =>
        match rooms !! k with
        | None => (rooms, Finished exc)
        | Some members =>
            let members' := members ∖ {[websocket]} in
            if decide (size members' = 0%nat) then
              (delete k rooms, Finished exc)
            else
              (<[k := members']> rooms,
               match elements members' with
               | [] => Finished exc
               | peer :: rest =>
                   Notifying peer rest (peer_left_msg room) (InCleanup exc)
               end)
        end
    end
  else (rooms, Finished exc).

(** An exception leaving the [try] body: [ConnectionClosed] is caught and
    dropped, anything else keeps propagating; the [finally] block runs in
    both cases. *)
Definition raise (websocket : conn) (room : json) (e : exn)
    (rooms : registry) : registry * pc :=
  let exc := match e with ConnectionClosed => None | _ => Some e end in
  cleanup websocket room exc rooms.

(** Advance a peer loop to its next [await peer.send], or leave the loop. *)
Definition iterate (websocket : conn) (room : json) (peers : list conn)
    (msg : json) (ctx : loop_ctx) (rooms : registry) : registry * pc :=
  match peers with
  | peer :: rest => (rooms, Notifying peer rest msg ctx)
  | [] =>
      match ctx with
      | InBody => (rooms, Receiving)
      | InLeave => cleanup websocket room None rooms
      | InCleanup exc => (rooms, Finished exc)
      end
  end.

(** [for peer in list(s): if peer != websocket: ...] only awaits on the
    peers that differ from the handler's own connection. *)
Definition others (websocket : conn) (members : gset conn) : list conn :=
  filter (λ peer, peer ≠ websocket) (elements members).

(** The [join] branch (lines 28-58), up to its first await. *)
Definition on_join (websocket : conn) (items : list (string * json))
    (rooms : registry) : registry * local :=
  let room := dict_get "room" items in
  if negb (truthy room) then
    (rooms, Local room (Replying (error_msg "Missing room") false))
  else
    match hash_key room with
    | None =>
        let '(rooms', p) := raise websocket room TypeError rooms in
        (rooms', Local room p)
    | Some k =>
        let rooms1 :=
          match rooms !! k with
          | None => <[k := ∅]> rooms
          | Some _ => rooms
          end in
        let members := default ∅ (rooms1 !! k) in
        if decide (2 ≤ size members)%nat then
          (rooms1,
           Local room (Replying (error_msg "Room is full (max 2 peers)") false))
        else
          let members' := members ∪ {[websocket]} in
          let peer_count := size members' in
          (<[k := members']> rooms1,
           Local room (Replying (joined_msg room peer_count) true))
    end.

(** The [relay] branch (lines 68-91), up to its first await. *)
Definition on_relay (websocket : conn) (room : json)
    (items : list (string * json)) (rooms : registry) : registry * local :=
  let not_in_room :=
    (rooms, Local room (Replying (error_msg "Not in a room") false)) in
  if negb (truthy room) then not_in_room
  else
    match hash_key room with
    | None =>
        let '(rooms', p) := raise websocket room TypeError rooms in
        (rooms', Local room p)
    | Some k =>
        match rooms !! k with
        | None => not_in_room
        | Some members =>
            let payload := dict_get "payload" items in
            if negb (truthy payload) then
              (rooms, Local room (Replying (error_msg "Missing payload") false))
            else
              let '(rooms', p) :=
                iterate websocket room (others websocket members)
                  (relayed_msg room payload) InBody rooms in
              (rooms', Local room p)
        end
    end.

(** The [leave] branch (lines 93-105): the [break] runs the [finally]
    block as soon as the peer loop is over. *)
Definition on_leave (websocket : conn) (room : json) (rooms : registry)
    : registry * local :=
  let '(rooms', p) :=
    if truthy room then
      match hash_key room with
      | None => raise websocket room TypeError rooms
      | Some k =>
          match rooms !! k with
          | None => cleanup websocket room None rooms
          | Some members =>
              let members' := members ∖ {[websocket]} in
              if decide (size members' = 0%nat) then
                cleanup websocket room None (delete k rooms)
              else
                iterate websocket room (elements members')
                  (peer_left_msg room) InLeave (<[k := members']> rooms)
          end
      end
    else cleanup websocket room None rooms in
  (rooms', Local room p).

(** One inbound frame (lines 25-105), up to the next await. *)
Definition on_frame (websocket : conn) (room : json) (f : frame)
    (rooms : registry) : registry * local :=
  match f with
  | Malformed =>
      let '(rooms', p) := raise websocket room JSONDecodeError rooms in
      (rooms', Local room p)
  | Parsed (JObj items) =>
      match dict_get "action" items with
      | JStr action =>
          if String.eqb action "join" then on_join websocket items rooms
          else if String.eqb action "relay" then
            on_relay websocket room items rooms
          else if String.eqb action "leave" then on_leave websocket room rooms
          else (rooms, Local room Receiving)
      | _ => (rooms, Local room Receiving)
      end
  | Parsed _ =>
      let '(rooms', p) := raise websocket room AttributeError rooms in
      (rooms', Local room p)
  end.

(** Line 61, reached when the [joined] reply has been sent: the room is
    looked up again and its members are snapshotted. *)
Definition notify_join (websocket : conn) (room : json) (rooms : registry)
    : registry * pc :=
  match hash_key room with
  | None => raise websocket room TypeError rooms
  | Some k =>
      match rooms !! k with
      | None => raise websocket room KeyError rooms
      | Some members =>
          iterate websocket room (others websocket members)
            (peer_joined_msg room) InBody rooms
      end
  end.

(** One step of the coroutine [handle_client] of connection [websocket]:
    from the await it is suspended at to the next one.  [None] when the
    event is not one the await can receive. *)
Definition handle_client (websocket : conn) (ev : event) (rooms : registry)
    (l : local) : option (registry * local * list obs) :=
  let room := room l in
  match at_pc l, ev with
  | Receiving, Frame f =>
      let '(rooms', l') := on_frame websocket room f rooms in
      Some (rooms', l', [])
  | Receiving, Closed =>
      let '(rooms', p) := cleanup websocket room None rooms in
      Some (rooms', Local room p, [])
  | Replying msg then_notify, SendOk =>
      let '(rooms', p) :=
        if then_notify then notify_join websocket room rooms
        else (rooms, Receiving) in
      Some (rooms', Local room p, [Delivered websocket msg])
  | Replying msg _, SendRaise e =>
      let '(rooms', p) := raise websocket room e rooms in
      Some (rooms', Local room p, [Failed websocket msg e])
  | Notifying peer rest msg ctx, SendOk =>
      let '(rooms', p) := iterate websocket room rest msg ctx rooms in
      Some (rooms', Local room p, [Delivered peer msg])
  | Notifying peer rest msg ctx, SendRaise e =>
      let '(rooms', p) :=
        match ctx with
        | InCleanup _ => iterate websocket room rest msg ctx rooms
        | InBody | InLeave => raise websocket room e rooms
        end in
      Some (rooms', Local room p, [Failed peer msg e])
  | _, _ => None
  end.

(** ** The server: one registry shared by all connection tasks *)

Record config : Type := Config {
  rooms : registry;
  handlers : gmap conn local;
}.

Definition initial_config : config := Config ∅ ∅.

(** What the event loop does next: accept a new connection (a fresh
    websocket object gets its own [handle_client] task), or resume the task
    of a connection with the outcome of the await it is suspended at. *)
Inductive turn : Type :=
| Accept (websocket : conn)
| Resume (websocket : conn) (ev : event).

Definition sys_step (a : turn) (σ : config) : option (config * list obs) :=
  match a with
  | Accept websocket =>
      match handlers σ !! websocket with
      | None =>
          Some (Config (rooms σ) (<[websocket := initial_local]> (handlers σ)),
                [])
      | Some _ => None
      end
  | Resume websocket ev =>
      match handlers σ !! websocket with
      | None => None
      | Some l =>
          match handle_client websocket ev (rooms σ) l with
          | None => None
          | Some (rooms', l', t) =>
              Some (Config rooms' (<[websocket := l']> (handlers σ)), t)
          end
      end
  end.

(** Run a schedule, collecting what was put on the wire. *)
Fixpoint run (sched : list turn) (σ : config) : option (config * list obs) :=
  match sched with
  | [] => Some (σ, [])
  | a :: rest =>
      match sys_step a σ with
      | None => None
      | Some (σ', t) =>
          match run rest σ' with
          | None => None
          | Some (σ'', t') => Some (σ'', (t ++ t')%list)
          end
      end
  end.

Definition reachable (σ : config) : Prop :=
  ∃ sched t, run sched initial_config = Some (σ, t).

(** The members of a room; no entry means no members. *)
Definition members (rs : registry) (k : key) : gset conn :=
  default ∅ (rs !! k).

(** ** Frames *)

Definition join_frame (rm : json) : frame :=
  Parsed (JObj [("action", JStr "join"); ("room", rm)]).

Definition relay_frame (payload : json) : frame :=
  Parsed (JObj [("action", JStr "relay"); ("payload", payload)]).

Definition leave_frame : frame :=
  Parsed (JObj [("action", JStr "leave")]).

Definition sdp : json := JObj [("sdp", JStr "...")].

(** * Specification vocabulary *)

(** ** Registry and handler invariants *)

(** Truthiness seen from the key: the keys of [None], [0], [False] and the
    empty string belong to falsy room values only. *)
Definition key_truthy (k : key) : bool :=
  match k with
  | KNone => false
  | KInt z => negb (Z.eqb z 0%Z)
  | KStr s => negb (String.eqb s "")
  end.

Definition rooms_ok (rs : registry) : Prop :=
  ∀ k S, rs !! k = Some S →
    S ≠ ∅ ∧ (size S ≤ 2)%nat ∧ key_truthy k = true.

(** ** Uninterrupted runs of one handler *)

(** The coroutine of [ws] running through a list of events with no other
    task scheduled in between. *)
Fixpoint run_handler (ws : conn) (evs : list event) (rs : registry) (l : local)
    : option (registry * local * list obs) :=
  match evs with
  | [] => Some (rs, l, [])
  | ev :: rest =>
      match handle_client ws ev rs l with
      | None => None
      | Some (rs', l', t) =>
          match run_handler ws rest rs' l' with
          | None => None
          | Some (rs'', l'', t') => Some (rs'', l'', (t ++ t')%list)
          end
      end
  end.

(** ** Outcomes of the branches of the message loop *)

(** The four outcomes of a [join] envelope. *)
Inductive join_outcome (ws : conn) (items : list (string * json))
    (rs : registry) : registry * local → Prop :=
| join_missing_room :
    truthy (dict_get "room" items) = false →
    join_outcome ws items rs
      (rs, Local (dict_get "room" items)
             (Replying (error_msg "Missing room") false))
| join_unhashable :
    truthy (dict_get "room" items) = true →
    hash_key (dict_get "room" items) = None →
    join_outcome ws items rs
      (rs, Local (dict_get "room" items) (Finished (Some TypeError)))
| join_full k :
    truthy (dict_get "room" items) = true →
    hash_key (dict_get "room" items) = Some k →
    (2 ≤ size (members rs k))%nat →
    join_outcome ws items rs
      (rs, Local (dict_get "room" items)
             (Replying (error_msg "Room is full (max 2 peers)") false))
| join_success k :
    truthy (dict_get "room" items) = true →
    hash_key (dict_get "room" items) = Some k →
    (size (members rs k) < 2)%nat →
    join_outcome ws items rs
      (<[k := members rs k ∪ {[ws]}]> rs,
       Local (dict_get "room" items)
         (Replying (joined_msg (dict_get "room" items)
                      (size (members rs k ∪ {[ws]}))) true)).

(** The five outcomes of a [relay] envelope. *)
Inductive relay_outcome ws rm (items : list (string * json)) (rs : registry)
    : registry * local → Prop :=
| relay_no_room :
    truthy rm = false →
    relay_outcome ws rm items rs
      (rs, Local rm (Replying (error_msg "Not in a room") false))
| relay_unhashable :
    truthy rm = true → hash_key rm = None →
    relay_outcome ws rm items rs (rs, Local rm (Finished (Some TypeError)))
| relay_unknown_room k :
    truthy rm = true → hash_key rm = Some k → rs !! k = None →
    relay_outcome ws rm items rs
      (rs, Local rm (Replying (error_msg "Not in a room") false))
| relay_missing_payload k S :
    truthy rm = true → hash_key rm = Some k → rs !! k = Some S →
    truthy (dict_get "payload" items) = false →
    relay_outcome ws rm items rs
      (rs, Local rm (Replying (error_msg "Missing payload") false))
| relay_forward k S :
    truthy rm = true → hash_key rm = Some k → rs !! k = Some S →
    truthy (dict_get "payload" items) = true →
    relay_outcome ws rm items rs
      (rs, Local rm
             (iterate ws rm (others ws S)
                (relayed_msg rm (dict_get "payload" items)) InBody rs).2).

(** ** Envelopes on the wire *)

Definition is_action (a : string) (msg : json) : bool :=
  match msg with
  | JObj items =>
      match dict_get "action" items with
      | JStr a' => String.eqb a' a
      | _ => false
      end
  | _ => false
  end.

Definition is_error (msg : json) : bool := is_action "error" msg.

(** The send the coroutine is suspended at: addressee and message. *)
Definition pending_send (ws : conn) (l : local) : option (conn * json) :=
  match at_pc l with
  | Replying msg _ => Some (ws, msg)
  | Notifying peer _ msg _ => Some (peer, msg)
  | Receiving | Finished _ => None
  end.

(** The envelopes addressed to the peers of a room. *)
Definition peer_msg (rm msg : json) : Prop :=
  msg = peer_joined_msg rm ∨ (∃ payload, msg = relayed_msg rm payload) ∨
  msg = peer_left_msg rm.

(** A control state with no reply pending, whose peer notification, if one
    is pending, is a peer envelope or the message [carried] over. *)
Definition peers_only (rm : json) (carried : option json) (p : pc) : Prop :=
  match p with
  | Replying _ _ => False
  | Notifying _ _ msg _ => peer_msg rm msg ∨ carried = Some msg
  | Receiving | Finished _ => True
  end.

(** ** Protocol errors *)

(** The four protocol errors and what triggers each. *)
Definition protocol_errors : list string :=
  ["Missing room"; "Room is full (max 2 peers)"; "Not in a room";
   "Missing payload"].

Inductive error_cause (rm : json) (items : list (string * json))
    (rs : registry) : string → Prop :=
| cause_missing_room :
    dict_get "action" items = JStr "join" →
    truthy (dict_get "room" items) = false →
    error_cause rm items rs "Missing room"
| cause_room_full k :
    dict_get "action" items = JStr "join" →
    truthy (dict_get "room" items) = true →
    hash_key (dict_get "room" items) = Some k →
    (2 ≤ size (members rs k))%nat →
    error_cause rm items rs "Room is full (max 2 peers)"
| cause_not_in_room :
    dict_get "action" items = JStr "relay" →
    truthy rm = false ∨ (∃ k, hash_key rm = Some k ∧ rs !! k = None) →
    error_cause rm items rs "Not in a room"
| cause_missing_payload k S :
    dict_get "action" items = JStr "relay" →
    truthy rm = true → hash_key rm = Some k → rs !! k = Some S →
    truthy (dict_get "payload" items) = false →
    error_cause rm items rs "Missing payload".

(** What handling one frame leaves pending. *)
Inductive frame_outcome (ws : conn) (rm : json) (f : frame) (rs : registry)
    : registry * local → Prop :=
| frame_quiet rs' l' :
    peers_only (room l') None (at_pc l') →
    frame_outcome ws rm f rs (rs', l')
| frame_joined rs' rm' n :
    frame_outcome ws rm f rs (rs', Local rm' (Replying (joined_msg rm' n) true))
| frame_error items text rm' :
    f = Parsed (JObj items) →
    error_cause rm items rs text →
    frame_outcome ws rm f rs (rs, Local rm' (Replying (error_msg text) false)).

(** No peer is about to be sent an error envelope. *)
Definition no_peer_error (l : local) : Prop :=
  match at_pc l with
  | Notifying _ _ msg _ => is_error msg = false
  | _ => True
  end.

Definition handlers_ok (σ : config) : Prop :=
  ∀ ws l, handlers σ !! ws = Some l → no_peer_error l.

(** ** The tracked room *)

(** The handler's connection is a member of the room it tracks. *)
Definition joined_to (ws : conn) (rm : json) (rs : registry) : Prop :=
  truthy rm = true ∧
  ∃ k S, hash_key rm = Some k ∧ rs !! k = Some S ∧ ws ∈ S.

(** The claim as the specification words it: a joined handler keeps its
    room whatever comes in. *)
Definition retains_room : Prop :=
  ∀ ws ev (rs : registry) l rs' l' t,
    joined_to ws (room l) rs →
    handle_client ws ev rs l = Some (rs', l', t) →
    room l' = room l.

(** ** Traces and scenarios *)

(** How many envelopes with action [a] were delivered to [target]. *)
Fixpoint count_deliveries (a : string) (target : conn) (t : list obs) : nat :=
  match t with
  | [] => 0
  | Delivered p msg :: rest =>
      (if Nat.eqb p target && is_action a msg then 1 else 0)
      + count_deliveries a target rest
  | Failed _ _ _ :: rest => count_deliveries a target rest
  end.

(** The configuration and the wire trace a schedule leads to. *)
Definition config_of (sched : list turn) : config :=
  match run sched initial_config with
  | Some (σ, _) => σ
  | None => initial_config
  end.

Definition trace_of (sched : list turn) : list obs :=
  match run sched initial_config with
  | Some (_, t) => t
  | None => []
  end.

(** Connection [ws] is accepted and joins [rm]; every send succeeds. *)
Definition join_alone (ws : conn) (rm : json) : list turn :=
  [Accept ws; Resume ws (Frame (join_frame rm)); Resume ws SendOk].

(** Connection [ws] is accepted and joins [rm] as the second member. *)
Definition join_second (ws : conn) (rm : json) : list turn :=
  [Accept ws; Resume ws (Frame (join_frame rm)); Resume ws SendOk;
   Resume ws SendOk].

(** Connections 1 and 2 share room ["r1"]. *)
Definition pair_in_r1 : list turn :=
  (join_alone 1 (JStr "r1") ++ join_second 2 (JStr "r1"))%list.

(** Connection 1 leaves room ["r1"], which it shares with connection 2, by
    a leave envelope; both sends to connection 2 succeed. *)
Definition leave_with_peer : list turn :=
  (pair_in_r1 ++
   [Resume 1 (Frame leave_frame); Resume 1 SendOk; Resume 1 SendOk])%list.

(** The same, by closing the channel. *)
Definition close_with_peer : list turn :=
  (pair_in_r1 ++ [Resume 1 Closed; Resume 1 SendOk])%list.

(** Connection 3 is refused in the full room ["r1"]. *)
Definition refused_third : list turn :=
  (pair_in_r1 ++
   [Accept 3; Resume 3 (Frame (join_frame (JStr "r1"))); Resume 3 SendOk])%list.

(** ... and then sends a relay envelope. *)
Definition refused_third_relays : list turn :=
  (refused_third ++
   [Resume 3 (Frame (relay_frame sdp)); Resume 3 SendOk; Resume 3 SendOk])%list.

(** ** Registry changes, ended handlers, server envelopes *)

(** The three ways a step of the handler of [ws] changes the registry, all
    at one key [k]: [add], [discard] keeping the entry, [discard] followed
    by [del]. *)
Inductive reg_change (ws : conn) (k : key) (rs : registry)
    : registry → Prop :=
| reg_add :
    reg_change ws k rs (<[k := members rs k ∪ {[ws]}]> rs)
| reg_discard S :
    rs !! k = Some S → S ∖ {[ws]} ≠ ∅ →
    reg_change ws k rs (<[k := S ∖ {[ws]}]> rs)
| reg_delete S :
    rs !! k = Some S → S ∖ {[ws]} = ∅ →
    reg_change ws k rs (delete k rs).

(** The message loop is over: the coroutine has returned, or it is in the
    peer loop of the leave branch or of the [finally] block. *)
Definition ended (p : pc) : Prop :=
  match p with
  | Finished _ => True
  | Notifying _ _ _ InLeave => True
  | Notifying _ _ _ (InCleanup _) => True
  | Notifying _ _ _ InBody => False
  | Receiving | Replying _ _ => False
  end.



(** A frame on which the loop body raises before looking at the action. *)
Definition fatal_frame (f : frame) : option exn :=
  match f with
  | Malformed => Some JSONDecodeError
  | Parsed (JObj _) => None
  | Parsed _ => Some AttributeError
  end.

(** An object whose action is none of join, relay, leave. *)
Definition other_action (items : list (string * json)) : Prop :=
  dict_get "action" items ≠ JStr "join" ∧
  dict_get "action" items ≠ JStr "relay" ∧
  dict_get "action" items ≠ JStr "leave".

Definition obs_msg (o : obs) : json :=
  match o with
  | Delivered _ msg => msg
  | Failed _ msg _ => msg
  end.

(** The envelopes the server emits. *)
Definition server_envelope (msg : json) : Prop :=
  (∃ text, text ∈ protocol_errors ∧ msg = error_msg text) ∨
  (∃ rm n, msg = joined_msg rm n ∧ (1 ≤ n ≤ 2)%nat) ∨
  (∃ rm, peer_msg rm msg).

(** Every handler is suspended, if at a send, at the send of a server
    envelope. *)
Definition pending_ok (σ : config) : Prop :=
  ∀ ws l target msg,
    handlers σ !! ws = Some l →
    pending_send ws l = Some (target, msg) → server_envelope msg.

(** A handler whose [joined] reply is pending is a member of the room it
    tracks. *)
Definition joiner_is_member (σ : config) : Prop :=
  ∀ ws l msg,
    handlers σ !! ws = Some l → at_pc l = Replying msg true →
    ∃ k, hash_key (room l) = Some k ∧ ws ∈ members (rooms σ) k.

(** A handler whose loop is over is not a member of the room it tracks. *)
Definition ended_is_gone (σ : config) : Prop :=
  ∀ ws l k,
    handlers σ !! ws = Some l → ended (at_pc l) →
    hash_key (room l) = Some k → ws ∉ members (rooms σ) k.

(** A join envelope for another room than [k], or any other event. *)
Definition avoids_room (k : key) (ev : event) : Prop :=
  ∀ items,
    ev = Frame (Parsed (JObj items)) →
    dict_get "action" items = JStr "join" →
    hash_key (dict_get "room" items) ≠ Some k.


(** The events on which the message loop is left. *)
Definition ending_event (ev : event) : Prop :=
  match ev with
  | Closed => True
  | SendRaise _ => True
  | Frame f =>
      fatal_frame f ≠ None ∨
      ∃ items, f = Parsed (JObj items) ∧
               dict_get "action" items = JStr "leave"
  | SendOk => False
  end.

Definition is_frame (ev : event) : Prop :=
  match ev with Frame _ => True | _ => False end.

Definition join_envelope (ev : event) : Prop :=
  ∃ items, ev = Frame (Parsed (JObj items)) ∧
           dict_get "action" items = JStr "join".

(** * Properties *)

(** ** The registry invariant: every entry has one or two members *)

Lemma hash_key_truthy rm k : hash_key rm = Some k → truthy rm = key_truthy k.
Proof. destruct rm as [| [] | | | |]; simpl; intros ?; by simplify_eq. Qed.

Section registry_invariant.
Implicit Types (rs : registry) (ws : conn) (rm : json) (S : gset conn).

Lemma rooms_ok_empty : rooms_ok ∅.
Proof. intros k S HS. rewrite lookup_empty in HS. discriminate. Qed.

Lemma rooms_ok_delete rs k : rooms_ok rs → rooms_ok (delete k rs).
Proof.
  intros Hok k' S HS. apply (Hok k').
  apply lookup_delete_Some in HS. tauto.
Qed.

Lemma rooms_ok_insert rs k S :
  rooms_ok rs → S ≠ ∅ → (size S ≤ 2)%nat → key_truthy k = true →
  rooms_ok (<[k := S]> rs).
Proof.
  intros Hok Hne Hsz Hk k' S' HS'.
  apply lookup_insert_Some in HS' as [[<- <-] | [_ HS']]; [done | by eapply Hok].
Qed.

Lemma size_discard S ws : (size (S ∖ {[ws]}) ≤ size S)%nat.
Proof. apply subseteq_size. set_solver. Qed.

Lemma size_add S ws : (size (S ∪ {[ws]}) ≤ size S + 1)%nat.
Proof.
  rewrite size_union_alt.
  assert (size ({[ws]} ∖ S) ≤ size ({[ws]} : gset conn))%nat as Hle
    by (apply subseteq_size; set_solver).
  rewrite size_singleton in Hle. lia.
Qed.

Lemma cleanup_rooms_ok ws rm exc rs :
  rooms_ok rs → rooms_ok (cleanup ws rm exc rs).1.
Proof.
  intros Hok. unfold cleanup.
  destruct (truthy rm); [| done].
  destruct (hash_key rm) as [k |]; [| done].
  destruct (rs !! k) as [S |] eqn:HS; [| done].
  case_decide as Hsz; simpl.
  - by apply rooms_ok_delete.
  - destruct (Hok _ _ HS) as (_ & Hle & Hkt).
    apply rooms_ok_insert; [done | | | done].
    + intros He. apply Hsz. rewrite He. apply size_empty.
    + pose proof (size_discard S ws). lia.
Qed.

Lemma raise_rooms_ok ws rm e rs :
  rooms_ok rs → rooms_ok (raise ws rm e rs).1.
Proof. apply cleanup_rooms_ok. Qed.

Lemma iterate_rooms_ok ws rm peers msg ctx rs :
  rooms_ok rs → rooms_ok (iterate ws rm peers msg ctx rs).1.
Proof.
  intros Hok. destruct peers as [| p rest]; [| done].
  destruct ctx; simpl; [done | by apply cleanup_rooms_ok | done].
Qed.

End registry_invariant.

(** ** What each branch of the message loop does *)

Section branches.
Implicit Types (rs : registry) (ws : conn) (rm : json) (S : gset conn).

Lemma cleanup_unhashable ws rm exc rs :
  truthy rm = true → hash_key rm = None →
  cleanup ws rm exc rs = (rs, Finished (Some TypeError)).
Proof. intros Ht Hk. unfold cleanup. by rewrite Ht, Hk. Qed.

Lemma cleanup_falsy ws rm exc rs :
  truthy rm = false → cleanup ws rm exc rs = (rs, Finished exc).
Proof. intros Ht. unfold cleanup. by rewrite Ht. Qed.

Lemma cleanup_absent ws rm exc rs k :
  hash_key rm = Some k → rs !! k = None →
  cleanup ws rm exc rs = (rs, Finished exc).
Proof.
  intros Hk Hrs. unfold cleanup. rewrite Hk, Hrs. by destruct (truthy rm).
Qed.

Lemma on_join_outcome ws items rs :
  join_outcome ws items rs (on_join ws items rs).
Proof.
  unfold on_join.
  destruct (truthy (dict_get "room" items)) eqn:Ht; simpl;
    [| by constructor].
  destruct (hash_key (dict_get "room" items)) as [k |] eqn:Hk.
  - destruct (rs !! k) as [S |] eqn:HS.
    + rewrite HS. cbn [default]. case_decide as Hsz.
      * apply (join_full _ _ _ k); [done .. |].
        unfold members. by rewrite HS.
      * replace S with (members rs k) by (unfold members; by rewrite HS).
        apply (join_success _ _ _ k); [done .. |].
        unfold members. rewrite HS. cbn [default]. lia.
    + rewrite lookup_insert_eq. cbn [default]. rewrite size_empty.
      case_decide as Hsz; [lia |].
      rewrite insert_insert_eq.
      replace (∅ : gset conn) with (members rs k)
        by (unfold members; by rewrite HS).
      apply (join_success _ _ _ k); [done .. |].
      unfold members. rewrite HS. cbn [default]. rewrite size_empty. lia.
  - unfold raise. rewrite cleanup_unhashable by done. by constructor.
Qed.

Lemma on_join_rooms_ok ws items rs :
  rooms_ok rs → rooms_ok (on_join ws items rs).1.
Proof.
  intros Hok. destruct (on_join_outcome ws items rs); simpl; try done.
  apply rooms_ok_insert; [done | set_solver | |].
  - pose proof (size_add (members rs k) ws). lia.
  - by erewrite <- hash_key_truthy.
Qed.

Lemma on_relay_rooms ws rm items rs : (on_relay ws rm items rs).1 = rs.
Proof.
  unfold on_relay. destruct (truthy rm) eqn:Ht; simpl; [| done].
  destruct (hash_key rm) as [k |] eqn:Hk.
  - destruct (rs !! k) as [S |]; [| done].
    destruct (truthy (dict_get "payload" items)); simpl; [| done].
    by destruct (others ws S).
  - unfold raise. by rewrite cleanup_unhashable.
Qed.

Lemma on_leave_rooms_ok ws rm rs :
  rooms_ok rs → rooms_ok (on_leave ws rm rs).1.
Proof.
  intros Hok. unfold on_leave.
  match goal with
  | |- rooms_ok (let '(_, _) := ?e in _).1 =>
      assert (rooms_ok e.1) as He; [| by destruct e]
  end.
  destruct (truthy rm); [| by apply cleanup_rooms_ok].
  destruct (hash_key rm) as [k |]; [| by apply raise_rooms_ok].
  destruct (rs !! k) as [S |] eqn:HS; [| by apply cleanup_rooms_ok].
  case_decide as Hsz.
  - by apply cleanup_rooms_ok, rooms_ok_delete.
  - destruct (Hok _ _ HS) as (_ & Hle & Hkt).
    apply iterate_rooms_ok, rooms_ok_insert; [done | | | done].
    + intros He. apply Hsz. rewrite He. apply size_empty.
    + pose proof (size_discard S ws). lia.
Qed.

Lemma on_frame_rooms_ok ws rm f rs :
  rooms_ok rs → rooms_ok (on_frame ws rm f rs).1.
Proof.
  intros Hok. unfold on_frame.
  destruct f as [| data].
  { pose proof (raise_rooms_ok ws rm JSONDecodeError rs Hok).
    by destruct (raise ws rm JSONDecodeError rs). }
  destruct data as [| | | | | items];
    try (pose proof (raise_rooms_ok ws rm AttributeError rs Hok);
         by destruct (raise ws rm AttributeError rs)).
  destruct (dict_get "action" items) as [| | | a | |]; try done.
  destruct (String.eqb a "join"); [by apply on_join_rooms_ok |].
  destruct (String.eqb a "relay"); [by rewrite on_relay_rooms |].
  destruct (String.eqb a "leave"); [by apply on_leave_rooms_ok | done].
Qed.

Lemma notify_join_rooms_ok ws rm rs :
  rooms_ok rs → rooms_ok (notify_join ws rm rs).1.
Proof.
  intros Hok. unfold notify_join.
  destruct (hash_key rm) as [k |]; [| by apply raise_rooms_ok].
  destruct (rs !! k) as [S |]; [| by apply raise_rooms_ok].
  by apply iterate_rooms_ok.
Qed.

Lemma handler_step_rooms_ok ws ev rs l rs' l' t :
  handle_client ws ev rs l = Some (rs', l', t) → rooms_ok rs → rooms_ok rs'.
Proof.
  intros Hstep Hok. unfold handle_client in Hstep.
  destruct (at_pc l) as [| msg b | p rest msg ctx | exc], ev as [f | | | e];
    try discriminate.
  - pose proof (on_frame_rooms_ok ws (room l) f rs Hok).
    destruct (on_frame ws (room l) f rs). by simplify_eq.
  - pose proof (cleanup_rooms_ok ws (room l) None rs Hok).
    destruct (cleanup ws (room l) None rs). by simplify_eq.
  - destruct b.
    + pose proof (notify_join_rooms_ok ws (room l) rs Hok).
      destruct (notify_join ws (room l) rs). by simplify_eq.
    + by simplify_eq.
  - pose proof (raise_rooms_ok ws (room l) e rs Hok).
    destruct (raise ws (room l) e rs). by simplify_eq.
  - pose proof (iterate_rooms_ok ws (room l) rest msg ctx rs Hok).
    destruct (iterate ws (room l) rest msg ctx rs). by simplify_eq.
  - destruct ctx.
    + pose proof (raise_rooms_ok ws (room l) e rs Hok).
      destruct (raise ws (room l) e rs). by simplify_eq.
    + pose proof (raise_rooms_ok ws (room l) e rs Hok).
      destruct (raise ws (room l) e rs). by simplify_eq.
    + pose proof (iterate_rooms_ok ws (room l) rest msg (InCleanup pending) rs Hok).
      destruct (iterate ws (room l) rest msg (InCleanup pending) rs).
      by simplify_eq.
Qed.

End branches.

(** ** Reachable configurations *)

Lemma sys_step_rooms_ok a σ σ' t :
  sys_step a σ = Some (σ', t) → rooms_ok (rooms σ) → rooms_ok (rooms σ').
Proof.
  intros Hstep Hok. destruct a as [ws | ws ev]; simpl in Hstep.
  - destruct (handlers σ !! ws); by simplify_eq.
  - destruct (handlers σ !! ws) as [l |]; [| done].
    destruct (handle_client ws ev (rooms σ) l) as [[[rs' l'] t'] |] eqn:Hh;
      [| done].
    simplify_eq. simpl. by eapply handler_step_rooms_ok.
Qed.

Lemma run_rooms_ok sched σ σ' t :
  run sched σ = Some (σ', t) → rooms_ok (rooms σ) → rooms_ok (rooms σ').
Proof.
  revert σ t. induction sched as [| a rest IH]; intros σ t Hrun Hok; simpl in Hrun.
  - by simplify_eq.
  - destruct (sys_step a σ) as [[σ1 t1] |] eqn:Hs; [| done].
    destruct (run rest σ1) as [[σ2 t2] |] eqn:Hr; [| done].
    simplify_eq. eapply IH; [done |]. by eapply sys_step_rooms_ok.
Qed.

Lemma reachable_rooms_ok σ : reachable σ → rooms_ok (rooms σ).
Proof.
  intros (sched & t & Hrun). eapply run_rooms_ok; [done |]. apply rooms_ok_empty.
Qed.

Lemma run_config_of sched :
  is_Some (run sched initial_config) → reachable (config_of sched).
Proof.
  intros [[σ t] Hrun]. exists sched, t. unfold config_of. by rewrite Hrun.
Qed.

(** ** C1: room capacity *)

Lemma members_lookup (rs : registry) k S : rs !! k = Some S → members rs k = S.
Proof. intros HS. unfold members. by rewrite HS. Qed.

Lemma on_frame_join ws rm items rs :
  dict_get "action" items = JStr "join" →
  on_frame ws rm (Parsed (JObj items)) rs = on_join ws items rs.
Proof. intros Ha. unfold on_frame. by rewrite Ha. Qed.

Lemma on_frame_relay ws rm items rs :
  dict_get "action" items = JStr "relay" →
  on_frame ws rm (Parsed (JObj items)) rs = on_relay ws rm items rs.
Proof. intros Ha. unfold on_frame. by rewrite Ha. Qed.

Lemma on_frame_leave ws rm items rs :
  dict_get "action" items = JStr "leave" →
  on_frame ws rm (Parsed (JObj items)) rs = on_leave ws rm rs.
Proof. intros Ha. unfold on_frame. by rewrite Ha. Qed.

Lemma on_join_full ws items rs k :
  rooms_ok rs →
  hash_key (dict_get "room" items) = Some k →
  (2 ≤ size (members rs k))%nat →
  on_join ws items rs =
    (rs, Local (dict_get "room" items)
           (Replying (error_msg "Room is full (max 2 peers)") false)).
Proof.
  intros Hok Hk Hsz.
  assert (truthy (dict_get "room" items) = true) as Ht.
  { rewrite (hash_key_truthy _ _ Hk). unfold members in Hsz.
    destruct (rs !! k) as [S |] eqn:HS.
    - by destruct (Hok _ _ HS) as (_ & _ & ?).
    - cbn [default] in Hsz. rewrite size_empty in Hsz. lia. }
  destruct (on_join_outcome ws items rs) as [Hf | ? Hu | k' _ Hk' _ | k' _ Hk' Hlt];
    [congruence | congruence | done |].
  assert (k' = k) as -> by congruence. lia.
Qed.

(** C1.  At every reachable configuration every room has at most two
    members; and a join envelope for a room that has two members is
    answered with the error "Room is full (max 2 peers)" while the registry
    stays as it is. *)
Theorem room_capacity (σ : config) (k : key) :
  reachable σ →
  (size (members (rooms σ) k) ≤ 2)%nat ∧
  ∀ ws l items,
    at_pc l = Receiving →
    dict_get "action" items = JStr "join" →
    hash_key (dict_get "room" items) = Some k →
    size (members (rooms σ) k) = 2%nat →
    handle_client ws (Frame (Parsed (JObj items))) (rooms σ) l =
      Some (rooms σ,
            Local (dict_get "room" items)
              (Replying (error_msg "Room is full (max 2 peers)") false), []) ∧
    ∀ rs, handle_client ws SendOk rs
            (Local (dict_get "room" items)
               (Replying (error_msg "Room is full (max 2 peers)") false)) =
          Some (rs, Local (dict_get "room" items) Receiving,
                [Delivered ws (error_msg "Room is full (max 2 peers)")]).
Proof.
  intros Hreach. pose proof (reachable_rooms_ok _ Hreach) as Hok. split.
  - unfold members. destruct (rooms σ !! k) as [S |] eqn:HS; cbn [default].
    + destruct (Hok _ _ HS) as (_ & ? & _). done.
    + rewrite size_empty. lia.
  - intros ws l items Hpc Ha Hk Hsz. split; [| done].
    unfold handle_client. rewrite Hpc, on_frame_join by done.
    rewrite (on_join_full ws items (rooms σ) k) by (done || lia). done.
Qed.

Lemma room_capacity_witness :
  let σ := config_of (pair_in_r1 ++ [Accept 3]) in
  reachable σ ∧
  (size (members (rooms σ) (KStr "r1")) ≤ 2)%nat ∧
  handle_client 3 (Frame (join_frame (JStr "r1"))) (rooms σ) initial_local =
    Some (rooms σ,
          Local (JStr "r1")
            (Replying (error_msg "Room is full (max 2 peers)") false), []).
Proof.
  intros σ.
  assert (reachable σ) as Hreach.
  { apply run_config_of. vm_compute. eexists. reflexivity. }
  split; [exact Hreach |].
  destruct (room_capacity σ (KStr "r1") Hreach) as [Hle Hfull].
  split; [exact Hle |].
  apply (Hfull 3 initial_local
           [("action", JStr "join"); ("room", JStr "r1")]);
    [reflexivity | reflexivity | reflexivity | vm_compute; reflexivity].
Defined.

(** ** C2: no dangling empty rooms *)

Lemma cleanup_last_member ws rm exc (rs : registry) k :
  truthy rm = true → hash_key rm = Some k →
  members rs k ∖ {[ws]} = ∅ →
  cleanup ws rm exc rs = (delete k rs, Finished exc).
Proof.
  intros Ht Hk Hlast. unfold cleanup. rewrite Ht, Hk.
  destruct (rs !! k) as [S |] eqn:HS.
  - rewrite (members_lookup _ _ _ HS) in Hlast. rewrite Hlast, size_empty.
    by rewrite decide_True.
  - by rewrite delete_id.
Qed.

Lemma on_leave_last_member ws rm (rs : registry) k :
  truthy rm = true → hash_key rm = Some k →
  members rs k ∖ {[ws]} = ∅ →
  on_leave ws rm rs = (delete k rs, Local rm (Finished None)).
Proof.
  intros Ht Hk Hlast. unfold on_leave. rewrite Ht, Hk.
  destruct (rs !! k) as [S |] eqn:HS.
  - rewrite (members_lookup _ _ _ HS) in Hlast. rewrite Hlast, size_empty.
    rewrite decide_True by done.
    rewrite (cleanup_absent _ _ _ _ k) by (done || apply lookup_delete_eq).
    done.
  - rewrite (cleanup_absent _ _ _ _ k) by done. by rewrite delete_id.
Qed.

(** C2.  At every reachable configuration a room key is in the registry
    exactly when the room has a member.  A join envelope that creates the
    entry of a room creates it with the joining connection as its member; a
    leave envelope or a closed channel whose discard empties the room
    deletes its entry in the same step. *)
Theorem no_dangling_rooms (σ : config) (k : key) :
  reachable σ →
  (is_Some (rooms σ !! k) ↔ members (rooms σ) k ≠ ∅) ∧
  (∀ ws l items rs' l' t,
     at_pc l = Receiving →
     dict_get "action" items = JStr "join" →
     rooms σ !! k = None →
     handle_client ws (Frame (Parsed (JObj items))) (rooms σ) l = Some (rs', l', t) →
     is_Some (rs' !! k) →
     rs' !! k = Some {[ws]}) ∧
  (∀ ws l ev rs' l' t,
     at_pc l = Receiving →
     ev = Closed ∨
       (∃ items, ev = Frame (Parsed (JObj items)) ∧
                 dict_get "action" items = JStr "leave") →
     truthy (room l) = true →
     hash_key (room l) = Some k →
     members (rooms σ) k ∖ {[ws]} = ∅ →
     handle_client ws ev (rooms σ) l = Some (rs', l', t) →
     rs' !! k = None).
Proof.
  intros Hreach. pose proof (reachable_rooms_ok _ Hreach) as Hok.
  split; [| split].
  - unfold members. destruct (rooms σ !! k) as [S |] eqn:HS; cbn [default].
    + destruct (Hok _ _ HS) as (Hne & _). split; [done | by eauto].
    + split; [by intros [? ?] | done].
  - intros ws l items rs' l' t Hpc Ha Hnone Hstep Hsome.
    unfold handle_client in Hstep. rewrite Hpc, on_frame_join in Hstep by done.
    destruct (on_join_outcome ws items (rooms σ)) as [| | | k' _ _ _];
      simplify_eq; try (rewrite Hnone in Hsome; by destruct Hsome).
    destruct (decide (k' = k)) as [-> | Hne].
    + rewrite lookup_insert_eq. unfold members. rewrite Hnone. cbn [default].
      by rewrite union_empty_l_L.
    + rewrite lookup_insert_ne in Hsome by done.
      rewrite Hnone in Hsome. by destruct Hsome.
  - intros ws l ev rs' l' t Hpc Hev Ht Hk Hlast Hstep.
    unfold handle_client in Hstep. rewrite Hpc in Hstep.
    destruct Hev as [-> | (items & -> & Ha)].
    + rewrite (cleanup_last_member _ _ _ _ k) in Hstep by done.
      simplify_eq. apply lookup_delete_eq.
    + rewrite on_frame_leave in Hstep by done.
      rewrite (on_leave_last_member _ _ _ k) in Hstep by done.
      simplify_eq. apply lookup_delete_eq.
Qed.

Lemma no_dangling_rooms_witness :
  let σ0 := config_of [Accept 1] in
  let σ1 := config_of (join_alone 1 (JStr "r1")) in
  reachable σ1 ∧
  (is_Some (rooms σ1 !! KStr "r1") ↔ members (rooms σ1) (KStr "r1") ≠ ∅) ∧
  rooms (config_of [Accept 1; Resume 1 (Frame (join_frame (JStr "r1")))])
    !! KStr "r1" = Some {[1]} ∧
  rooms (config_of (join_alone 1 (JStr "r1") ++ [Resume 1 Closed])) !! KStr "r1"
    = None.
Proof.
  intros σ0 σ1.
  assert (reachable σ0) as Hreach0.
  { apply run_config_of. vm_compute. eexists. reflexivity. }
  assert (reachable σ1) as Hreach1.
  { apply run_config_of. vm_compute. eexists. reflexivity. }
  destruct (no_dangling_rooms σ0 (KStr "r1") Hreach0) as (_ & Hcreate & _).
  destruct (no_dangling_rooms σ1 (KStr "r1") Hreach1) as (Hiff & _ & Hdelete).
  split; [exact Hreach1 |]. split; [exact Hiff |]. split.
  - apply (Hcreate 1 initial_local
             [("action", JStr "join"); ("room", JStr "r1")]
             (rooms (config_of [Accept 1; Resume 1 (Frame (join_frame (JStr "r1")))]))
             (Local (JStr "r1") (Replying (joined_msg (JStr "r1") 1) true)) []).
    + reflexivity.
    + reflexivity.
    + vm_compute. reflexivity.
    + vm_compute. reflexivity.
    + vm_compute. eexists. reflexivity.
  - apply (Hdelete 1 (Local (JStr "r1") Receiving) Closed
             (rooms (config_of (join_alone 1 (JStr "r1") ++ [Resume 1 Closed])))
             (Local (JStr "r1") (Finished None)) []).
    + reflexivity.
    + by left.
    + reflexivity.
    + reflexivity.
    + vm_compute. reflexivity.
    + vm_compute. reflexivity.
Defined.

(** ** C8: the replies to a successful join *)

Lemma run_body_loop ws rm (peers : list conn) msg (rs : registry) :
  run_handler ws (repeat SendOk (length peers)) rs
    (Local rm (iterate ws rm peers msg InBody rs).2)
  = Some (rs, Local rm Receiving, map (λ q, Delivered q msg) peers).
Proof.
  induction peers as [| p rest IH]; [done |].
  cbn [length repeat run_handler iterate snd].
  unfold handle_client. cbn [at_pc room].
  destruct (iterate ws rm rest msg InBody rs) as [rs1 p1] eqn:Hit.
  assert (rs1 = rs) as -> by (destruct rest; simpl in Hit; by simplify_eq).
  cbn [snd] in IH. by rewrite IH.
Qed.

Lemma elem_of_others ws (S : gset conn) p : p ∈ others ws S ↔ p ∈ S ∧ p ≠ ws.
Proof.
  unfold others. rewrite list_elem_of_filter, elem_of_elements. tauto.
Qed.

Lemma NoDup_others ws (S : gset conn) : NoDup (others ws S).
Proof. apply NoDup_filter, NoDup_elements. Qed.

(** Once the [joined] reply is out, the members the room has at that
    point, other than the joiner, are notified one after the other. *)
Lemma joined_then_peers ws rm k n (rs : registry) (S : gset conn) :
  hash_key rm = Some k →
  rs !! k = Some S →
  run_handler ws (SendOk :: repeat SendOk (length (others ws S))) rs
    (Local rm (Replying (joined_msg rm n) true))
  = Some (rs, Local rm Receiving,
          Delivered ws (joined_msg rm n) ::
            map (λ p, Delivered p (peer_joined_msg rm)) (others ws S)).
Proof.
  intros Hk HS. cbn [run_handler]. unfold handle_client at 1. cbn [at_pc room].
  unfold notify_join. rewrite Hk, HS.
  pose proof (run_body_loop ws rm (others ws S) (peer_joined_msg rm) rs) as Hloop.
  destruct (iterate ws rm (others ws S) (peer_joined_msg rm) InBody rs)
    as [rs1 p1] eqn:Hit.
  assert (rs1 = rs) as ->
    by (destruct (others ws S); simpl in Hit; by simplify_eq).
  cbn [snd] in Hloop. by rewrite Hloop.
Qed.

(** C8.  A join envelope for a room with fewer than two members adds the
    connection; the handler then sends, in this order, [joined] to the
    joiner with [peers] the member count after the join (1 for the first
    member, 2 for the second), and [peer_joined] to every other member. *)
Theorem join_notifications ws (l : local) items (rs : registry) k :
  at_pc l = Receiving →
  dict_get "action" items = JStr "join" →
  truthy (dict_get "room" items) = true →
  hash_key (dict_get "room" items) = Some k →
  (size (members rs k) < 2)%nat →
  let rm := dict_get "room" items in
  let joined := members rs k ∪ {[ws]} in
  run_handler ws
    (Frame (Parsed (JObj items)) :: SendOk ::
       repeat SendOk (length (others ws joined))) rs l
  = Some (<[k := joined]> rs, Local rm Receiving,
          Delivered ws (joined_msg rm (size joined)) ::
            map (λ p, Delivered p (peer_joined_msg rm)) (others ws joined)) ∧
  (∀ p, p ∈ others ws joined ↔ p ∈ members rs k ∧ p ≠ ws) ∧
  NoDup (others ws joined) ∧
  (members rs k = ∅ → size joined = 1%nat) ∧
  (∀ p, members rs k = {[p]} → p ≠ ws → size joined = 2%nat).
Proof.
  intros Hpc Ha Ht Hk Hsz. cbv zeta.
  set (rm := dict_get "room" items).
  set (joined := members rs k ∪ {[ws]}).
  split; [| split; [| split; [| split]]].
  - cbn [run_handler]. unfold handle_client at 1.
    rewrite Hpc, on_frame_join by done.
    destruct (on_join_outcome ws items rs) as [| | k' _ Hk' Hge | k' _ Hk' _];
      try congruence.
    { assert (k' = k) as -> by congruence. lia. }
    assert (k' = k) as -> by congruence. fold joined rm.
    pose proof (joined_then_peers ws rm k (size joined) (<[k := joined]> rs)
                  joined Hk (lookup_insert_eq _ _ _)) as Hrest.
    cbn [run_handler] in Hrest. by rewrite Hrest.
  - intros p. rewrite elem_of_others. unfold joined. set_solver.
  - apply NoDup_others.
  - intros He. unfold joined. rewrite He, union_empty_l_L. apply size_singleton.
  - intros p Hp Hne. unfold joined. rewrite Hp.
    rewrite size_union by set_solver. by rewrite !size_singleton.
Qed.

Lemma join_notifications_witness :
  let σ := config_of (join_alone 1 (JStr "r1") ++ [Accept 2]) in
  let joined := members (rooms σ) (KStr "r1") ∪ {[2]} in
  run_handler 2
    (Frame (join_frame (JStr "r1")) :: SendOk ::
       repeat SendOk (length (others 2 joined))) (rooms σ) initial_local
  = Some (<[KStr "r1" := joined]> (rooms σ), Local (JStr "r1") Receiving,
          Delivered 2 (joined_msg (JStr "r1") (size joined)) ::
            map (λ p, Delivered p (peer_joined_msg (JStr "r1")))
              (others 2 joined)) ∧
  size joined = 2%nat ∧ others 2 joined = [1].
Proof.
  intros σ joined.
  destruct (join_notifications 2 initial_local
              [("action", JStr "join"); ("room", JStr "r1")]
              (rooms σ) (KStr "r1")) as (Hrun & _ & _ & _ & Htwo).
  - reflexivity.
  - reflexivity.
  - reflexivity.
  - reflexivity.
  - vm_compute. lia.
  - split; [exact Hrun |]. split.
    + apply (Htwo 1); [vm_compute; reflexivity | discriminate].
    + vm_compute. reflexivity.
Defined.

(** ** C9, C10: protocol errors *)

Lemma iterate_body_rooms ws rm peers msg (rs : registry) :
  (iterate ws rm peers msg InBody rs).1 = rs.
Proof. by destruct peers. Qed.

Lemma on_relay_outcome ws rm items (rs : registry) :
  relay_outcome ws rm items rs (on_relay ws rm items rs).
Proof.
  unfold on_relay. destruct (truthy rm) eqn:Ht; cbn [negb]; [| by constructor].
  destruct (hash_key rm) as [k |] eqn:Hk.
  - destruct (rs !! k) as [S |] eqn:HS; [| by eapply relay_unknown_room].
    destruct (truthy (dict_get "payload" items)) eqn:Hp; cbn [negb].
    + pose proof (relay_forward ws rm items rs k S Ht Hk HS Hp) as Hout.
      pose proof (iterate_body_rooms ws rm (others ws S)
                    (relayed_msg rm (dict_get "payload" items)) rs) as Hrs.
      destruct (iterate ws rm (others ws S)
                  (relayed_msg rm (dict_get "payload" items)) InBody rs).
      cbn [fst snd] in *. by subst.
    + by eapply relay_missing_payload.
  - unfold raise. rewrite cleanup_unhashable by done. by constructor.
Qed.

Lemma peer_msg_not_error rm msg : peer_msg rm msg → is_error msg = false.
Proof. intros [-> | [[payload ->] | ->]]; reflexivity. Qed.

Lemma cleanup_peers_only ws rm exc (rs : registry) carried :
  peers_only rm carried (cleanup ws rm exc rs).2.
Proof.
  unfold cleanup. destruct (truthy rm); [| done].
  destruct (hash_key rm) as [k |]; [| done].
  destruct (rs !! k) as [S |]; [| done].
  case_decide; [done |]. cbn [snd].
  destruct (elements (S ∖ {[ws]})); [done |].
  left. unfold peer_msg. auto.
Qed.

Lemma iterate_peers_only ws rm peers msg ctx (rs : registry) :
  peers_only rm (Some msg) (iterate ws rm peers msg ctx rs).2.
Proof.
  destruct peers as [| p rest]; [| by right].
  destruct ctx; [done | apply cleanup_peers_only | done].
Qed.

Lemma peers_only_weaken rm carried p :
  peers_only rm None p → peers_only rm carried p.
Proof. destruct p; try done. intros [? | ?]; [by left | done]. Qed.

Lemma iterate_fresh_peers_only ws rm peers msg ctx (rs : registry) carried :
  peer_msg rm msg → peers_only rm carried (iterate ws rm peers msg ctx rs).2.
Proof.
  intros Hmsg. destruct peers as [| p rest]; [| by left].
  destruct ctx; [done | apply cleanup_peers_only | done].
Qed.

Lemma notify_join_peers_only ws rm (rs : registry) carried :
  peers_only rm carried (notify_join ws rm rs).2.
Proof.
  unfold notify_join, raise.
  destruct (hash_key rm) as [k |]; [| apply cleanup_peers_only].
  destruct (rs !! k) as [S |]; [| apply cleanup_peers_only].
  apply iterate_fresh_peers_only. unfold peer_msg. auto.
Qed.

Lemma on_leave_peers_only ws rm (rs : registry) carried :
  peers_only rm carried (at_pc (on_leave ws rm rs).2).
Proof.
  unfold on_leave.
  match goal with
  | |- peers_only _ _ (at_pc (let '(_, _) := ?e in _).2) =>
      assert (peers_only rm carried e.2) as He; [| by destruct e]
  end.
  unfold raise.
  destruct (truthy rm); [| apply cleanup_peers_only].
  destruct (hash_key rm) as [k |]; [| apply cleanup_peers_only].
  destruct (rs !! k) as [S |]; [| apply cleanup_peers_only].
  case_decide; [apply cleanup_peers_only |].
  apply iterate_fresh_peers_only. unfold peer_msg. auto.
Qed.

Lemma on_leave_room ws rm (rs : registry) : room (on_leave ws rm rs).2 = rm.
Proof.
  unfold on_leave.
  by match goal with
     | |- room (let '(_, _) := ?e in _).2 = _ => destruct e
     end.
Qed.

Lemma raise_frame_outcome ws rm f e (rs : registry) :
  frame_outcome ws rm f rs
    (let '(rs', p) := raise ws rm e rs in (rs', Local rm p)).
Proof.
  pose proof (cleanup_peers_only ws rm
                (match e with ConnectionClosed => None | _ => Some e end) rs None)
    as Hp.
  unfold raise. destruct (cleanup ws rm _ rs). by apply frame_quiet.
Qed.

Lemma on_frame_outcome ws rm f (rs : registry) :
  frame_outcome ws rm f rs (on_frame ws rm f rs).
Proof.
  unfold on_frame. destruct f as [| data]; [apply raise_frame_outcome |].
  destruct data as [| | | | | items]; try apply raise_frame_outcome.
  destruct (dict_get "action" items) as [| | | a | |] eqn:Ha;
    try by apply frame_quiet.
  destruct (String.eqb a "join") eqn:Hjoin.
  { apply String.eqb_eq in Hjoin as ->.
    destruct (on_join_outcome ws items rs).
    - eapply frame_error; [done |]. by apply cause_missing_room.
    - by apply frame_quiet.
    - eapply frame_error; [done |]. by eapply cause_room_full.
    - apply frame_joined. }
  destruct (String.eqb a "relay") eqn:Hrelay.
  { apply String.eqb_eq in Hrelay as ->.
    destruct (on_relay_outcome ws rm items rs).
    - eapply frame_error; [done |]. apply cause_not_in_room; auto.
    - by apply frame_quiet.
    - eapply frame_error; [done |]. apply cause_not_in_room; eauto.
    - eapply frame_error; [done |]. by eapply cause_missing_payload.
    - apply frame_quiet. cbn [room at_pc].
      apply iterate_fresh_peers_only. unfold peer_msg. eauto. }
  destruct (String.eqb a "leave") eqn:Hleave; [| by apply frame_quiet].
  pose proof (on_leave_peers_only ws rm rs None) as Hp.
  pose proof (on_leave_room ws rm rs) as Hr.
  destruct (on_leave ws rm rs) as [rs' l']. apply frame_quiet.
  cbn [snd] in *. by rewrite Hr.
Qed.

Lemma peers_only_no_error rm carried p l :
  peers_only rm carried p →
  (∀ msg, carried = Some msg → is_error msg = false) →
  at_pc l = p → no_peer_error l.
Proof.
  intros Hp Hc <-. unfold no_peer_error.
  destruct (at_pc l); try done.
  destruct Hp as [Hp | Hp]; [by eapply peer_msg_not_error | by apply Hc].
Qed.

Lemma frame_outcome_no_peer_error ws rm f (rs : registry) rs' l' :
  frame_outcome ws rm f rs (rs', l') → no_peer_error l'.
Proof.
  inversion 1; subst; try done.
  eapply peers_only_no_error; [done | | done]. by intros ? [=].
Qed.

Lemma handler_step_no_peer_error ws ev (rs : registry) l rs' l' t :
  handle_client ws ev rs l = Some (rs', l', t) →
  no_peer_error l → no_peer_error l'.
Proof.
  intros Hstep Hl. unfold handle_client in Hstep. unfold no_peer_error in Hl.
  destruct (at_pc l) as [| msg b | p rest msg ctx | exc], ev as [f | | | e];
    try discriminate.
  - pose proof (on_frame_outcome ws (room l) f rs) as Hout.
    destruct (on_frame ws (room l) f rs). simplify_eq.
    by eapply frame_outcome_no_peer_error.
  - pose proof (cleanup_peers_only ws (room l) None rs None) as Hp.
    destruct (cleanup ws (room l) None rs). simplify_eq.
    eapply peers_only_no_error; [done | | done]. by intros ? [=].
  - destruct b.
    + pose proof (notify_join_peers_only ws (room l) rs None) as Hp.
      destruct (notify_join ws (room l) rs). simplify_eq.
      eapply peers_only_no_error; [done | | done]. by intros ? [=].
    + by simplify_eq.
  - pose proof (cleanup_peers_only ws (room l)
                  (match e with ConnectionClosed => None | _ => Some e end)
                  rs None) as Hp.
    unfold raise in Hstep. destruct (cleanup ws (room l) _ rs). simplify_eq.
    eapply peers_only_no_error; [done | | done]. by intros ? [=].
  - pose proof (iterate_peers_only ws (room l) rest msg ctx rs) as Hp.
    destruct (iterate ws (room l) rest msg ctx rs). simplify_eq.
    eapply peers_only_no_error; [done | | done]. by intros ? [= <-].
  - assert (∃ q, peers_only (room l) (Some msg) q ∧ l' = Local (room l) q)
      as (q & Hq & ->).
    { destruct ctx.
      - pose proof (cleanup_peers_only ws (room l)
                      (match e with ConnectionClosed => None | _ => Some e end)
                      rs (Some msg)) as Hp.
        unfold raise in Hstep. destruct (cleanup ws (room l) _ rs).
        simplify_eq. eauto.
      - pose proof (cleanup_peers_only ws (room l)
                      (match e with ConnectionClosed => None | _ => Some e end)
                      rs (Some msg)) as Hp.
        unfold raise in Hstep. destruct (cleanup ws (room l) _ rs).
        simplify_eq. eauto.
      - pose proof (iterate_peers_only ws (room l) rest msg
                      (InCleanup pending) rs) as Hp.
        destruct (iterate ws (room l) rest msg (InCleanup pending) rs).
        simplify_eq. eauto. }
    eapply peers_only_no_error; [done | | done]. by intros ? [= <-].
Qed.

Lemma sys_step_handlers_ok a σ σ' t :
  sys_step a σ = Some (σ', t) → handlers_ok σ → handlers_ok σ'.
Proof.
  intros Hstep Hok ws' l' Hl'. destruct a as [ws | ws ev]; simpl in Hstep.
  - destruct (handlers σ !! ws) eqn:Hws; simplify_eq. simpl in Hl'.
    apply lookup_insert_Some in Hl' as [[_ <-] | [_ Hl']]; [done | by eapply Hok].
  - destruct (handlers σ !! ws) as [l |] eqn:Hws; [| done].
    destruct (handle_client ws ev (rooms σ) l) as [[[rs1 l1] t1] |] eqn:Hh;
      [| done].
    simplify_eq. simpl in Hl'.
    apply lookup_insert_Some in Hl' as [[_ <-] | [_ Hl']]; [| by eapply Hok].
    eapply handler_step_no_peer_error; [done | by eapply Hok].
Qed.

Lemma run_handlers_ok sched σ σ' t :
  run sched σ = Some (σ', t) → handlers_ok σ → handlers_ok σ'.
Proof.
  revert σ t. induction sched as [| a rest IH]; intros σ t Hrun Hok; simpl in Hrun.
  - by simplify_eq.
  - destruct (sys_step a σ) as [[σ1 t1] |] eqn:Hs; [| done].
    destruct (run rest σ1) as [[σ2 t2] |] eqn:Hr; [| done].
    simplify_eq. eapply IH; [done |]. by eapply sys_step_handlers_ok.
Qed.

Lemma reachable_handlers_ok σ : reachable σ → handlers_ok σ.
Proof.
  intros (sched & t & Hrun). eapply run_handlers_ok; [done |].
  intros ws l Hl. simpl in Hl. rewrite lookup_empty in Hl. discriminate.
Qed.

Lemma handler_step_reply ws ev (rs : registry) l rs' l' t msg b :
  handle_client ws ev rs l = Some (rs', l', t) →
  at_pc l' = Replying msg b →
  at_pc l = Receiving ∧ t = [] ∧
  ∃ f, ev = Frame f ∧ on_frame ws (room l) f rs = (rs', l').
Proof.
  intros Hstep Hl'. unfold handle_client in Hstep.
  assert (∀ carried q, peers_only (room l) carried q →
            l' = Local (room l) q → False) as Hno.
  { intros carried q Hq ->. cbn [at_pc] in Hl'. by subst q. }
  destruct (at_pc l) as [| msg0 b0 | p rest msg0 ctx | exc], ev as [f | | | e];
    try discriminate.
  - destruct (on_frame ws (room l) f rs) as [rs1 l1] eqn:Hf. simplify_eq. eauto.
  - pose proof (cleanup_peers_only ws (room l) None rs None) as Hp.
    destruct (cleanup ws (room l) None rs). simplify_eq. by edestruct Hno.
  - destruct b0.
    + pose proof (notify_join_peers_only ws (room l) rs None) as Hp.
      destruct (notify_join ws (room l) rs). simplify_eq. by edestruct Hno.
    + by simplify_eq.
  - pose proof (cleanup_peers_only ws (room l)
                  (match e with ConnectionClosed => None | _ => Some e end)
                  rs None) as Hp.
    unfold raise in Hstep. destruct (cleanup ws (room l) _ rs). simplify_eq.
    by edestruct Hno.
  - pose proof (iterate_peers_only ws (room l) rest msg0 ctx rs) as Hp.
    destruct (iterate ws (room l) rest msg0 ctx rs). simplify_eq.
    by edestruct Hno.
  - destruct ctx.
    + pose proof (cleanup_peers_only ws (room l)
                    (match e with ConnectionClosed => None | _ => Some e end)
                    rs None) as Hp.
      unfold raise in Hstep. destruct (cleanup ws (room l) _ rs). simplify_eq.
      by edestruct Hno.
    + pose proof (cleanup_peers_only ws (room l)
                    (match e with ConnectionClosed => None | _ => Some e end)
                    rs None) as Hp.
      unfold raise in Hstep. destruct (cleanup ws (room l) _ rs). simplify_eq.
      by edestruct Hno.
    + pose proof (iterate_peers_only ws (room l) rest msg0
                    (InCleanup pending) rs) as Hp.
      destruct (iterate ws (room l) rest msg0 (InCleanup pending) rs).
      simplify_eq. by edestruct Hno.
Qed.

Lemma error_cause_listed rm items (rs : registry) text :
  error_cause rm items rs text → text ∈ protocol_errors.
Proof. unfold protocol_errors. destruct 1; set_solver. Qed.

(** C9.  In every execution, whenever a handler is about to send an error
    envelope, the step that produced it handled a join or relay envelope of
    that same connection, the error string is one of the four protocol
    errors with its stated cause, the envelope is addressed to that
    connection, the registry is untouched, and once the send has completed
    the handler is back at receiving the next frame. *)
Theorem protocol_error_replies σ ws l ev rs' l' t target msg :
  reachable σ →
  handlers σ !! ws = Some l →
  handle_client ws ev (rooms σ) l = Some (rs', l', t) →
  pending_send ws l' = Some (target, msg) →
  is_error msg = true →
  ∃ items text,
    at_pc l = Receiving ∧ ev = Frame (Parsed (JObj items)) ∧
    error_cause (room l) items (rooms σ) text ∧
    text ∈ protocol_errors ∧
    msg = error_msg text ∧ target = ws ∧ rs' = rooms σ ∧
    ∀ rs2, handle_client ws SendOk rs2 l' =
             Some (rs2, Local (room l') Receiving, [Delivered ws msg]).
Proof.
  intros Hreach Hl Hstep Hpend Herr.
  pose proof (reachable_handlers_ok _ Hreach _ _ Hl) as Hquiet.
  pose proof (handler_step_no_peer_error _ _ _ _ _ _ _ Hstep Hquiet) as Hquiet'.
  unfold pending_send in Hpend. unfold no_peer_error in Hquiet'.
  destruct (at_pc l') as [| msg' b | p rest msg' ctx | exc] eqn:Hpc';
    try discriminate; injection Hpend as <- <-; [| congruence].
  destruct (handler_step_reply _ _ _ _ _ _ _ _ _ Hstep Hpc')
    as (Hpc & -> & f & -> & Hf).
  pose proof (on_frame_outcome ws (room l) f (rooms σ)) as Hout.
  rewrite Hf in Hout.
  inversion Hout as [? ? Hp | | items text rm' -> Hcause]; subst.
  - by rewrite Hpc' in Hp.
  - cbn [at_pc] in Hpc'. by simplify_eq.
  - cbn [at_pc] in Hpc'. simplify_eq. exists items, text.
    repeat split; try done. by eapply error_cause_listed.
Qed.

Lemma protocol_error_replies_witness :
  let σ := config_of (pair_in_r1 ++ [Accept 3]) in
  reachable σ ∧
  ∃ items text,
    Frame (join_frame (JStr "r1")) = Frame (Parsed (JObj items)) ∧
    error_cause JNull items (rooms σ) text ∧
    error_msg "Room is full (max 2 peers)" = error_msg text.
Proof.
  intros σ.
  assert (reachable σ) as Hreach.
  { apply run_config_of. vm_compute. eexists. reflexivity. }
  split; [exact Hreach |].
  destruct (protocol_error_replies σ 3 initial_local
              (Frame (join_frame (JStr "r1"))) (rooms σ)
              (Local (JStr "r1")
                 (Replying (error_msg "Room is full (max 2 peers)") false))
              [] 3 (error_msg "Room is full (max 2 peers)") Hreach)
    as (items & text & _ & Hev & Hcause & _ & Hmsg & _).
  - vm_compute. reflexivity.
  - vm_compute. reflexivity.
  - reflexivity.
  - reflexivity.
  - exists items, text. auto.
Defined.

(** C10.  A relay envelope from a connection whose tracked room is in the
    registry, with a payload that is falsy in Python (absent, [null], [0],
    [false], the empty string, an empty array or object), is answered with
    "Missing payload": nothing is relayed, the registry is untouched and
    the loop goes on. *)
Theorem falsy_payload_rejected ws (l : local) items (rs : registry) k S :
  at_pc l = Receiving →
  dict_get "action" items = JStr "relay" →
  truthy (room l) = true →
  hash_key (room l) = Some k →
  rs !! k = Some S →
  truthy (dict_get "payload" items) = false →
  handle_client ws (Frame (Parsed (JObj items))) rs l =
    Some (rs, Local (room l) (Replying (error_msg "Missing payload") false), []) ∧
  (∀ rs2, handle_client ws SendOk rs2
            (Local (room l) (Replying (error_msg "Missing payload") false)) =
          Some (rs2, Local (room l) Receiving,
                [Delivered ws (error_msg "Missing payload")])) ∧
  Forall (λ v, truthy v = false)
    [JNull; JInt 0; JBool false; JStr ""; JArr []; JObj []].
Proof.
  intros Hpc Ha Ht Hk HS Hp. split; [| split].
  - unfold handle_client. rewrite Hpc, on_frame_relay by done.
    unfold on_relay. by rewrite Ht, Hk, HS, Hp.
  - done.
  - repeat constructor.
Qed.

Lemma falsy_payload_rejected_witness :
  let σ := config_of pair_in_r1 in
  handle_client 1 (Frame (relay_frame (JInt 0))) (rooms σ)
    (Local (JStr "r1") Receiving) =
  Some (rooms σ,
        Local (JStr "r1") (Replying (error_msg "Missing payload") false), []).
Proof.
  intros σ.
  apply (falsy_payload_rejected 1 (Local (JStr "r1") Receiving)
           [("action", JStr "relay"); ("payload", JInt 0)]
           (rooms σ) (KStr "r1") {[1; 2]}).
  - reflexivity.
  - reflexivity.
  - reflexivity.
  - reflexivity.
  - vm_compute. reflexivity.
  - reflexivity.
Defined.

(** ** C4: the tracked room *)

Lemma on_relay_room ws rm items (rs : registry) :
  room (on_relay ws rm items rs).2 = rm.
Proof. by destruct (on_relay_outcome ws rm items rs). Qed.

Lemma on_join_room ws items (rs : registry) :
  room (on_join ws items rs).2 = dict_get "room" items.
Proof. by destruct (on_join_outcome ws items rs). Qed.

Lemma raise_local_room ws rm e (rs : registry) :
  room (let '(rs', p) := raise ws rm e rs in (rs', Local rm p)).2 = rm.
Proof. by destruct (raise ws rm e rs). Qed.

Lemma on_frame_room ws rm f (rs : registry) :
  (∀ items, f = Parsed (JObj items) → dict_get "action" items ≠ JStr "join") →
  room (on_frame ws rm f rs).2 = rm.
Proof.
  intros Hnj. unfold on_frame.
  destruct f as [| data]; [apply raise_local_room |].
  destruct data as [| | | | | items]; try apply raise_local_room.
  specialize (Hnj items eq_refl).
  destruct (dict_get "action" items) as [| | | a | |]; try done.
  destruct (String.eqb a "join") eqn:Hjoin.
  { apply String.eqb_eq in Hjoin as ->. done. }
  destruct (String.eqb a "relay"); [apply on_relay_room |].
  destruct (String.eqb a "leave"); [apply on_leave_room | done].
Qed.

(** The second join of a connection replaces the room it tracked. *)
Lemma room_not_retained : ¬ retains_room.
Proof.
  intros Hclaim.
  specialize (Hclaim 1 (Frame (join_frame (JStr "r2")))
                (rooms (config_of (join_alone 1 (JStr "r1"))))
                (Local (JStr "r1") Receiving)
                (rooms (config_of (join_alone 1 (JStr "r1") ++
                                     [Resume 1 (Frame (join_frame (JStr "r2")))])))
                (Local (JStr "r2") (Replying (joined_msg (JStr "r2") 1) true))
                []).
  assert (JStr "r2" = JStr "r1") as Habs; [| discriminate Habs].
  apply Hclaim.
  - split; [reflexivity |]. exists (KStr "r1"), {[1]}.
    split; [reflexivity |]. split; [vm_compute; reflexivity | set_solver].
  - vm_compute. reflexivity.
Qed.

(** C4, amended.  The tracked room is left as it is by every event other
    than a join envelope; a join envelope that succeeds replaces it with
    the room just joined, of which the connection is then a member. *)
Theorem tracked_room_updates ws ev (rs : registry) l rs' l' t :
  handle_client ws ev rs l = Some (rs', l', t) →
  ((∀ items, ev = Frame (Parsed (JObj items)) →
             dict_get "action" items ≠ JStr "join") →
   room l' = room l) ∧
  (∀ items k,
     at_pc l = Receiving →
     ev = Frame (Parsed (JObj items)) →
     dict_get "action" items = JStr "join" →
     truthy (dict_get "room" items) = true →
     hash_key (dict_get "room" items) = Some k →
     (size (members rs k) < 2)%nat →
     room l' = dict_get "room" items ∧ ws ∈ members rs' k).
Proof.
  intros Hstep. split.
  - intros Hnj. unfold handle_client in Hstep.
    destruct (at_pc l) as [| msg b | p rest msg ctx | exc], ev as [f | | | e];
      try discriminate.
    + pose proof (on_frame_room ws (room l) f rs) as Hr.
      destruct (on_frame ws (room l) f rs). simplify_eq.
      apply Hr. intros items ->. by apply Hnj.
    + destruct (cleanup ws (room l) None rs). by simplify_eq.
    + destruct (if b then notify_join ws (room l) rs else (rs, Receiving)).
      by simplify_eq.
    + destruct (raise ws (room l) e rs). by simplify_eq.
    + destruct (iterate ws (room l) rest msg ctx rs). by simplify_eq.
    + destruct (match ctx with
                | InCleanup _ => iterate ws (room l) rest msg ctx rs
                | _ => raise ws (room l) e rs
                end). by simplify_eq.
  - intros items k Hpc -> Ha Ht Hk Hsz. unfold handle_client in Hstep.
    rewrite Hpc, on_frame_join in Hstep by done.
    destruct (on_join_outcome ws items rs) as [| | k' _ Hk' Hge | k' _ Hk' _];
      simplify_eq; try congruence; try lia.
    cbn [room]. split; [done |].
    unfold members at 1. rewrite lookup_insert_eq. cbn [default]. set_solver.
Qed.

Lemma tracked_room_updates_witness :
  let rs := rooms (config_of (join_alone 1 (JStr "r1"))) in
  let rs' := rooms (config_of (join_alone 1 (JStr "r1") ++
                                 [Resume 1 (Frame (join_frame (JStr "r2")))])) in
  handle_client 1 (Frame (join_frame (JStr "r2"))) rs (Local (JStr "r1") Receiving) =
    Some (rs', Local (JStr "r2") (Replying (joined_msg (JStr "r2") 1) true), []) ∧
  1 ∈ members rs' (KStr "r2").
Proof.
  intros rs rs'.
  assert (handle_client 1 (Frame (join_frame (JStr "r2"))) rs
            (Local (JStr "r1") Receiving) =
          Some (rs', Local (JStr "r2")
                       (Replying (joined_msg (JStr "r2") 1) true), []))
    as Hstep by (vm_compute; reflexivity).
  split; [exact Hstep |].
  destruct (tracked_room_updates _ _ _ _ _ _ _ Hstep) as [_ Hjoin].
  apply (Hjoin [("action", JStr "join"); ("room", JStr "r2")] (KStr "r2")).
  - reflexivity.
  - reflexivity.
  - reflexivity.
  - reflexivity.
  - reflexivity.
  - vm_compute. lia.
Defined.

(** ** C3, C5, C6, C7: executions that depart from the specification *)

(** C3.  The [finally] block running after an explicit leave: connection 1
    is no longer a member of room ["r1"], the registry is left as it is,
    and connection 2 is sent [peer_left] once more. *)
Theorem cleanup_after_leave_notifies :
  let rs := rooms (config_of (pair_in_r1 ++ [Resume 1 (Frame leave_frame)])) in
  (1 ∉ members rs (KStr "r1")) ∧
  (cleanup 1 (JStr "r1") None rs =
     (rs, Notifying 2 [] (peer_left_msg (JStr "r1")) (InCleanup None))).
Proof.
  intros rs. split.
  - assert (members rs (KStr "r1") = {[2]}) as -> by (vm_compute; reflexivity).
    set_solver.
  - vm_compute. reflexivity.
Qed.

(** C7.  After an explicit leave of connection 1 the remaining peer has
    been delivered two [peer_left] envelopes (one by the leave branch, one
    by the [finally] block) and the room is left with that one member;
    after a closed channel it has been delivered one. *)
Theorem explicit_leave_notifies_twice :
  count_deliveries "peer_left" 2 (trace_of leave_with_peer) = 2 ∧
  members (rooms (config_of leave_with_peer)) (KStr "r1") = {[2]} ∧
  handlers (config_of leave_with_peer) !! 1 = Some (Local (JStr "r1") (Finished None)) ∧
  count_deliveries "peer_left" 2 (trace_of close_with_peer) = 1 ∧
  members (rooms (config_of close_with_peer)) (KStr "r1") = {[2]}.
Proof. repeat split; vm_compute; reflexivity. Qed.

(** C5.  Connection 3, refused in the full room ["r1"], has been sent
    "Room is full (max 2 peers)" and is not a member; its handler tracks
    ["r1"] all the same, and its next relay envelope is not answered with
    "Not in a room" but forwarded to the two members. *)
Theorem refused_joiner_can_relay :
  let σ := config_of refused_third in
  count_deliveries "error" 3 (trace_of refused_third) = 1 ∧
  (3 ∉ members (rooms σ) (KStr "r1")) ∧
  handlers σ !! 3 = Some (Local (JStr "r1") Receiving) ∧
  ∃ p rest,
    handle_client 3 (Frame (relay_frame sdp)) (rooms σ) (Local (JStr "r1") Receiving)
    = Some (rooms σ,
            Local (JStr "r1")
              (Notifying p rest (relayed_msg (JStr "r1") sdp) InBody), []) ∧
    p :: rest ≡ₚ [1; 2].
Proof.
  intros σ. split; [vm_compute; reflexivity |]. split; [| split].
  - assert (members (rooms σ) (KStr "r1") = {[1; 2]}) as ->
      by (vm_compute; reflexivity).
    set_solver.
  - vm_compute. reflexivity.
  - eexists _, _. split; [vm_compute; reflexivity |].
    first [reflexivity | apply perm_swap].
Qed.

(** C6.  The relay envelope of the refused connection 3 is delivered
    twice, once to each member of room ["r1"]. *)
Theorem relay_delivered_twice :
  count_deliveries "relayed" 1 (trace_of refused_third_relays) = 1 ∧
  count_deliveries "relayed" 2 (trace_of refused_third_relays) = 1 ∧
  count_deliveries "error" 3 (trace_of refused_third_relays) = 1 ∧
  handlers (config_of refused_third_relays) !! 3 =
    Some (Local (JStr "r1") Receiving).
Proof. repeat split; vm_compute; reflexivity. Qed.

(** ** The paths on which relay and leave do behave as specified *)

Lemma length_others ws (S : gset conn) :
  length (others ws S) = size (S ∖ {[ws]}).
Proof.
  unfold size, set_size. cbn [length]. apply Permutation_length.
  apply NoDup_Permutation; [apply NoDup_others | apply NoDup_elements |].
  intros p. rewrite elem_of_others, elem_of_elements. set_solver.
Qed.

(** A member of a room relays to at most one peer, never to itself. *)
Lemma member_relays_to_one ws (S : gset conn) :
  ws ∈ S → (size S ≤ 2)%nat →
  (length (others ws S) ≤ 1)%nat ∧ ws ∉ others ws S.
Proof.
  intros Hin Hsz. split.
  - rewrite length_others, size_difference by set_solver.
    rewrite size_singleton. lia.
  - rewrite elem_of_others. tauto.
Qed.

(** A successful relay forwards the payload as received to the other
    members, and nothing to the sender. *)
Lemma relay_forwards_payload ws (l : local) items (rs : registry) k S :
  at_pc l = Receiving →
  dict_get "action" items = JStr "relay" →
  truthy (room l) = true →
  hash_key (room l) = Some k →
  rs !! k = Some S →
  truthy (dict_get "payload" items) = true →
  run_handler ws
    (Frame (Parsed (JObj items)) :: repeat SendOk (length (others ws S))) rs l
  = Some (rs, Local (room l) Receiving,
          map (λ p, Delivered p (relayed_msg (room l) (dict_get "payload" items)))
            (others ws S)).
Proof.
  intros Hpc Ha Ht Hk HS Hp. cbn [run_handler].
  unfold handle_client at 1. rewrite Hpc, on_frame_relay by done.
  unfold on_relay. rewrite Ht, Hk, HS, Hp. cbn [negb].
  pose proof (run_body_loop ws (room l) (others ws S)
                (relayed_msg (room l) (dict_get "payload" items)) rs) as Hloop.
  pose proof (iterate_body_rooms ws (room l) (others ws S)
                (relayed_msg (room l) (dict_get "payload" items)) rs) as Hrs.
  destruct (iterate ws (room l) (others ws S)
              (relayed_msg (room l) (dict_get "payload" items)) InBody rs)
    as [rs1 p1].
  cbn [fst snd] in *. subst rs1. by rewrite Hloop.
Qed.

(** A closed channel with one peer remaining: the peer is sent one
    [peer_left] and is left alone in the room. *)
Lemma close_with_one_peer ws p rm k exc (rs : registry) :
  truthy rm = true → hash_key rm = Some k →
  rs !! k = Some {[ws; p]} → p ≠ ws →
  cleanup ws rm exc rs =
    (<[k := {[p]}]> rs, Notifying p [] (peer_left_msg rm) (InCleanup exc)).
Proof.
  intros Ht Hk HS Hne. unfold cleanup. rewrite Ht, Hk, HS.
  assert (({[ws; p]} : gset conn) ∖ {[ws]} = {[p]}) as -> by set_solver.
  rewrite size_singleton, decide_False by done.
  by rewrite elements_singleton.
Qed.

(** A failing send in the [finally] block is dropped. *)
Lemma cleanup_send_failure_dropped ws rm p rest msg exc e (rs : registry) :
  handle_client ws (SendRaise e) rs (Local rm (Notifying p rest msg (InCleanup exc)))
  = Some (rs,
          Local rm (match rest with
                    | [] => Finished exc
                    | q :: rest' => Notifying q rest' msg (InCleanup exc)
                    end),
          [Failed p msg e]).
Proof. by destruct rest. Qed.

(** * Further properties of the handler *)

(** ** How a step changes the registry *)

Lemma size_zero_empty (S : gset conn) : size S = 0%nat ↔ S = ∅.
Proof. rewrite size_empty_iff. by unfold_leibniz. Qed.



Lemma cleanup_ended ws rm exc (rs : registry) :
  ended (cleanup ws rm exc rs).2.
Proof.
  unfold cleanup. destruct (truthy rm); [| done].
  destruct (hash_key rm) as [k |]; [| done].
  destruct (rs !! k) as [S |]; [| done].
  case_decide; [done |]. cbn [snd].
  by destruct (elements (S ∖ {[ws]})).
Qed.


(** The [finally] block leaves the registry alone or changes it at the key
    of the tracked room. *)
Lemma cleanup_reg_change ws rm exc (rs : registry) :
  (cleanup ws rm exc rs).1 = rs ∨
  ∃ k, hash_key rm = Some k ∧ reg_change ws k rs (cleanup ws rm exc rs).1.
Proof.
  unfold cleanup. destruct (truthy rm); [| by left].
  destruct (hash_key rm) as [k |]; [| by left].
  destruct (rs !! k) as [S |] eqn:HS; [| by left].
  right. exists k. split; [done |].
  case_decide as Hsz; cbn [fst].
  - apply size_zero_empty in Hsz. by eapply reg_delete.
  - rewrite size_zero_empty in Hsz. by eapply reg_discard.
Qed.

Lemma iterate_reg_change ws rm peers msg ctx (rs : registry) :
  (iterate ws rm peers msg ctx rs).1 = rs ∨
  ∃ k, hash_key rm = Some k ∧
       reg_change ws k rs (iterate ws rm peers msg ctx rs).1.
Proof.
  destruct peers as [| p rest]; [| by left].
  destruct ctx; [by left | apply cleanup_reg_change | by left].
Qed.

Lemma notify_join_reg_change ws rm (rs : registry) :
  (notify_join ws rm rs).1 = rs ∨
  ∃ k, hash_key rm = Some k ∧ reg_change ws k rs (notify_join ws rm rs).1.
Proof.
  unfold notify_join, raise.
  destruct (hash_key rm) as [k |] eqn:Hk.
  - destruct (rs !! k) as [S |].
    + left. apply iterate_body_rooms.
    + pose proof (cleanup_reg_change ws rm (Some KeyError) rs) as Hc.
      by rewrite Hk in Hc.
  - pose proof (cleanup_reg_change ws rm (Some TypeError) rs) as Hc.
    by rewrite Hk in Hc.
Qed.

Lemma on_leave_reg_change ws rm (rs : registry) :
  (on_leave ws rm rs).1 = rs ∨
  ∃ k, hash_key rm = Some k ∧ reg_change ws k rs (on_leave ws rm rs).1.
Proof.
  unfold on_leave.
  match goal with
  | |- (let '(_, _) := ?e in _).1 = _ ∨ _ =>
      assert (e.1 = rs ∨ ∃ k, hash_key rm = Some k ∧ reg_change ws k rs e.1)
        as He; [| by destruct e]
  end.
  unfold raise.
  destruct (truthy rm) eqn:Ht; [| apply cleanup_reg_change].
  destruct (hash_key rm) as [k |] eqn:Hk.
  - destruct (rs !! k) as [S |] eqn:HS.
    + right. exists k. split; [done |]. case_decide as Hsz.
      * apply size_zero_empty in Hsz.
        rewrite (cleanup_absent _ _ _ _ k) by (done || apply lookup_delete_eq).
        by eapply reg_delete.
      * rewrite size_zero_empty in Hsz.
        destruct (elements (S ∖ {[ws]})) as [| p rest] eqn:Hel.
        { apply elements_empty_inv in Hel. by unfold_leibniz. }
        cbn [iterate fst]. by eapply reg_discard.
    + pose proof (cleanup_reg_change ws rm None rs) as Hc.
      by rewrite Hk in Hc.
  - pose proof (cleanup_reg_change ws rm (Some TypeError) rs) as Hc.
    by rewrite Hk in Hc.
Qed.

Lemma on_join_reg_change ws items (rs : registry) :
  (on_join ws items rs).1 = rs ∨
  ∃ k, hash_key (dict_get "room" items) = Some k ∧
       reg_change ws k rs (on_join ws items rs).1.
Proof.
  destruct (on_join_outcome ws items rs) as [| | | k]; try by left.
  right. exists k. split; [done |]. apply reg_add.
Qed.

Lemma on_frame_reg_change ws rm f (rs : registry) :
  (on_frame ws rm f rs).1 = rs ∨
  ∃ k, hash_key (room (on_frame ws rm f rs).2) = Some k ∧
       reg_change ws k rs (on_frame ws rm f rs).1.
Proof.
  assert (∀ e,
    (let '(rs', p) := raise ws rm e rs in (rs', Local rm p)).1 = rs ∨
    ∃ k, hash_key (room (let '(rs', p) := raise ws rm e rs in
                         (rs', Local rm p)).2) = Some k ∧
         reg_change ws k rs
           (let '(rs', p) := raise ws rm e rs in (rs', Local rm p)).1) as Hraise.
  { intros e. unfold raise.
    pose proof (cleanup_reg_change ws rm
                  (match e with ConnectionClosed => None | _ => Some e end) rs)
      as Hc.
    by destruct (cleanup ws rm _ rs). }
  unfold on_frame. destruct f as [| data]; [apply Hraise |].
  destruct data as [| | | | | items]; try apply Hraise.
  destruct (dict_get "action" items) as [| | | a | |]; try by left.
  destruct (String.eqb a "join").
  { rewrite on_join_room. apply on_join_reg_change. }
  destruct (String.eqb a "relay"); [left; apply on_relay_rooms |].
  destruct (String.eqb a "leave"); [| by left].
  rewrite on_leave_room. apply on_leave_reg_change.
Qed.

(** A step of the handler leaves the registry alone or changes it at the
    key of the room the handler tracks after the step. *)
Lemma handle_client_reg_change ws ev (rs : registry) l rs' l' t :
  handle_client ws ev rs l = Some (rs', l', t) →
  rs' = rs ∨ ∃ k, hash_key (room l') = Some k ∧ reg_change ws k rs rs'.
Proof.
  intros Hstep. unfold handle_client in Hstep.
  destruct (at_pc l) as [| msg b | p rest msg ctx | exc], ev as [f | | | e];
    try discriminate.
  - pose proof (on_frame_reg_change ws (room l) f rs) as Hc.
    destruct (on_frame ws (room l) f rs). by simplify_eq.
  - pose proof (cleanup_reg_change ws (room l) None rs) as Hc.
    destruct (cleanup ws (room l) None rs). by simplify_eq.
  - destruct b.
    + pose proof (notify_join_reg_change ws (room l) rs) as Hc.
      destruct (notify_join ws (room l) rs). by simplify_eq.
    + simplify_eq. by left.
  - pose proof (cleanup_reg_change ws (room l)
                  (match e with ConnectionClosed => None | _ => Some e end) rs)
      as Hc.
    unfold raise in Hstep. destruct (cleanup ws (room l) _ rs). by simplify_eq.
  - pose proof (iterate_reg_change ws (room l) rest msg ctx rs) as Hc.
    destruct (iterate ws (room l) rest msg ctx rs). by simplify_eq.
  - destruct ctx.
    + pose proof (cleanup_reg_change ws (room l)
                    (match e with ConnectionClosed => None | _ => Some e end) rs)
        as Hc.
      unfold raise in Hstep. destruct (cleanup ws (room l) _ rs).
      by simplify_eq.
    + pose proof (cleanup_reg_change ws (room l)
                    (match e with ConnectionClosed => None | _ => Some e end) rs)
        as Hc.
      unfold raise in Hstep. destruct (cleanup ws (room l) _ rs).
      by simplify_eq.
    + pose proof (iterate_reg_change ws (room l) rest msg (InCleanup pending) rs)
        as Hc.
      destruct (iterate ws (room l) rest msg (InCleanup pending) rs).
      by simplify_eq.
Qed.

Lemma reg_change_other_key ws k (rs rs' : registry) k' :
  reg_change ws k rs rs' → k' ≠ k → rs' !! k' = rs !! k'.
Proof.
  intros [| S HS Hne | S HS He] Hk.
  - by rewrite lookup_insert_ne.
  - by rewrite lookup_insert_ne.
  - by rewrite lookup_delete_ne.
Qed.

Lemma reg_change_other_member ws k (rs rs' : registry) k' p :
  reg_change ws k rs rs' → p ≠ ws →
  p ∈ members rs' k' ↔ p ∈ members rs k'.
Proof.
  intros Hc Hp. destruct (decide (k' = k)) as [-> | Hk].
  - destruct Hc as [| S HS Hne | S HS He]; unfold members at 1.
    + rewrite lookup_insert_eq. cbn [default]. set_solver.
    + rewrite lookup_insert_eq. cbn [default].
      rewrite (members_lookup _ _ _ HS). set_solver.
    + rewrite lookup_delete_eq. cbn [default].
      rewrite (members_lookup _ _ _ HS). set_solver.
  - unfold members. by rewrite (reg_change_other_key _ _ _ _ _ Hc Hk).
Qed.

(** A step of the handler of [ws] neither adds nor removes any other
    connection, in any room. *)
Theorem handler_moves_only_itself ws ev (rs : registry) l rs' l' t p k :
  handle_client ws ev rs l = Some (rs', l', t) →
  p ≠ ws →
  p ∈ members rs' k ↔ p ∈ members rs k.
Proof.
  intros Hstep Hp.
  destruct (handle_client_reg_change _ _ _ _ _ _ _ Hstep)
    as [-> | (k0 & _ & Hc)]; [done |].
  by eapply reg_change_other_member.
Qed.

Lemma handler_moves_only_itself_witness :
  let rs := rooms (config_of pair_in_r1) in
  let rs' := rooms (config_of (pair_in_r1 ++ [Resume 1 Closed])) in
  handle_client 1 Closed rs (Local (JStr "r1") Receiving) =
    Some (rs', Local (JStr "r1")
                 (Notifying 2 [] (peer_left_msg (JStr "r1")) (InCleanup None)),
          []) ∧
  (2 ∈ members rs' (KStr "r1") ↔ 2 ∈ members rs (KStr "r1")).
Proof.
  intros rs rs'.
  assert (handle_client 1 Closed rs (Local (JStr "r1") Receiving) =
          Some (rs', Local (JStr "r1")
                       (Notifying 2 [] (peer_left_msg (JStr "r1"))
                          (InCleanup None)), []))
    as Hstep by (vm_compute; reflexivity).
  split; [exact Hstep |].
  apply (handler_moves_only_itself _ _ _ _ _ _ _ 2 (KStr "r1") Hstep).
  discriminate.
Defined.

(** A step of the handler changes no room other than the one it tracks
    when the step is over. *)
Theorem handler_changes_tracked_room_only ws ev (rs : registry) l rs' l' t k :
  handle_client ws ev rs l = Some (rs', l', t) →
  hash_key (room l') ≠ Some k →
  rs' !! k = rs !! k.
Proof.
  intros Hstep Hk.
  destruct (handle_client_reg_change _ _ _ _ _ _ _ Hstep)
    as [-> | (k0 & Hk0 & Hc)]; [done |].
  eapply reg_change_other_key; [done |]. congruence.
Qed.

Lemma handler_changes_tracked_room_only_witness :
  let rs := rooms (config_of (join_alone 1 (JStr "r1"))) in
  let rs' := rooms (config_of (join_alone 1 (JStr "r1") ++
                                 [Resume 1 (Frame (join_frame (JStr "r2")))])) in
  rs' !! KStr "r1" = rs !! KStr "r1".
Proof.
  intros rs rs'.
  apply (handler_changes_tracked_room_only 1 (Frame (join_frame (JStr "r2")))
           rs (Local (JStr "r1") Receiving) rs'
           (Local (JStr "r2") (Replying (joined_msg (JStr "r2") 1) true)) []).
  - vm_compute. reflexivity.
  - discriminate.
Defined.

(** Which room the handler tracks after a step. *)
Lemma handle_client_room ws ev (rs : registry) l rs' l' t :
  handle_client ws ev rs l = Some (rs', l', t) →
  room l' = room l ∨
  ∃ items, ev = Frame (Parsed (JObj items)) ∧
           dict_get "action" items = JStr "join" ∧
           room l' = dict_get "room" items.
Proof.
  intros Hstep. unfold handle_client in Hstep.
  destruct (at_pc l) as [| msg b | p rest msg ctx | exc], ev as [f | | | e];
    try discriminate.
  - destruct f as [| data].
    { left. pose proof (on_frame_room ws (room l) Malformed rs) as Hr.
      destruct (on_frame ws (room l) Malformed rs). simplify_eq.
      by apply Hr. }
    destruct data as [| | | | | items];
      try (left;
           match type of Hstep with
           | context [on_frame ?w ?r ?f ?s] =>
               pose proof (on_frame_room w r f s) as Hr;
               destruct (on_frame w r f s); simplify_eq; by apply Hr
           end).
    assert (dict_get "action" items = JStr "join" ∨
            dict_get "action" items ≠ JStr "join") as [Ha | Ha].
    { destruct (dict_get "action" items) as [| | | a | |]; try by right.
      destruct (String.eqb_spec a "join") as [-> | Hne]; [by left |].
      right. by intros [= ->]. }
    + right. exists items. rewrite on_frame_join in Hstep by done.
      pose proof (on_join_room ws items rs) as Hr.
      destruct (on_join ws items rs). by simplify_eq.
    + left. pose proof (on_frame_room ws (room l) (Parsed (JObj items)) rs) as Hr.
      destruct (on_frame ws (room l) (Parsed (JObj items)) rs). simplify_eq.
      apply Hr. by intros ? [= <-].
  - left. destruct (cleanup ws (room l) None rs). by simplify_eq.
  - left. destruct (if b then notify_join ws (room l) rs else (rs, Receiving)).
    by simplify_eq.
  - left. destruct (raise ws (room l) e rs). by simplify_eq.
  - left. destruct (iterate ws (room l) rest msg ctx rs). by simplify_eq.
  - left. destruct (match ctx with
                    | InCleanup _ => iterate ws (room l) rest msg ctx rs
                    | _ => raise ws (room l) e rs
                    end). by simplify_eq.
Qed.

(** A room the handler does not track stays as it is through any run of
    the handler that has no join envelope for that room: the handler does
    not discard its connection from it, not even when the channel closes. *)
Theorem untracked_room_untouched ws evs (rs : registry) l rs' l' t k :
  run_handler ws evs rs l = Some (rs', l', t) →
  hash_key (room l) ≠ Some k →
  Forall (avoids_room k) evs →
  rs' !! k = rs !! k ∧ hash_key (room l') ≠ Some k.
Proof.
  revert rs l t. induction evs as [| ev evs IH]; intros rs l t Hrun Hk Hav.
  - simpl in Hrun. by simplify_eq.
  - cbn [run_handler] in Hrun.
    destruct (handle_client ws ev rs l) as [[[rs1 l1] t1] |] eqn:Hstep; [| done].
    destruct (run_handler ws evs rs1 l1) as [[[rs2 l2] t2] |] eqn:Hrest; [| done].
    simplify_eq. apply Forall_cons in Hav as [Hev Hav].
    assert (hash_key (room l1) ≠ Some k) as Hk1.
    { destruct (handle_client_room _ _ _ _ _ _ _ Hstep)
        as [-> | (items & -> & Ha & ->)]; [done | by apply Hev]. }
    destruct (IH _ _ _ Hrest Hk1 Hav) as [Hrs Hk2]. split; [| done].
    rewrite Hrs.
    destruct (handle_client_reg_change _ _ _ _ _ _ _ Hstep)
      as [-> | (k0 & Hk0 & Hc)]; [done |].
    eapply reg_change_other_key; [done |]. congruence.
Qed.

Lemma untracked_room_untouched_witness :
  let rs := rooms (config_of (join_alone 1 (JStr "r1") ++
                                [Resume 1 (Frame (join_frame (JStr "r2")));
                                 Resume 1 SendOk])) in
  let rs' := rooms (config_of (join_alone 1 (JStr "r1") ++
                                 [Resume 1 (Frame (join_frame (JStr "r2")));
                                  Resume 1 SendOk;
                                  Resume 1 (Frame (relay_frame sdp));
                                  Resume 1 Closed])) in
  run_handler 1 [Frame (relay_frame sdp); Closed] rs
    (Local (JStr "r2") Receiving) =
    Some (rs', Local (JStr "r2") (Finished None), []) ∧
  rs' !! KStr "r1" = rs !! KStr "r1" ∧
  1 ∈ members rs (KStr "r1").
Proof.
  intros rs rs'.
  assert (run_handler 1 [Frame (relay_frame sdp); Closed] rs
            (Local (JStr "r2") Receiving) =
          Some (rs', Local (JStr "r2") (Finished None), [])) as Hrun
    by (vm_compute; reflexivity).
  split; [exact Hrun |]. split.
  - apply (untracked_room_untouched _ _ _ _ _ _ _ (KStr "r1") Hrun).
    + discriminate.
    + repeat constructor; intros items [= <-]; discriminate.
  - assert (members rs (KStr "r1") = {[1]}) as -> by (vm_compute; reflexivity).
    set_solver.
Defined.

(** ** Frames that are ignored, frames and sends that end the loop *)

(** An object whose action is none of join, relay and leave (or is
    missing) is ignored: no reply, no change, the loop goes on. *)
Theorem unknown_action_ignored ws (l : local) items (rs : registry) :
  at_pc l = Receiving →
  other_action items →
  handle_client ws (Frame (Parsed (JObj items))) rs l = Some (rs, l, []).
Proof.
  intros Hpc (Hj & Hr & Hl). destruct l as [rm p]. cbn [at_pc] in Hpc. subst p.
  unfold handle_client, on_frame. cbn [at_pc room].
  destruct (dict_get "action" items) as [| | | a | |]; try done.
  destruct (String.eqb_spec a "join") as [-> | _]; [done |].
  destruct (String.eqb_spec a "relay") as [-> | _]; [done |].
  by destruct (String.eqb_spec a "leave") as [-> | _].
Qed.

Lemma unknown_action_ignored_witness :
  let rs := rooms (config_of pair_in_r1) in
  handle_client 1 (Frame (Parsed (JObj [("action", JStr "ping")]))) rs
    (Local (JStr "r1") Receiving) =
  Some (rs, Local (JStr "r1") Receiving, []) ∧
  handle_client 1 (Frame (Parsed (JObj [("room", JStr "r9")]))) rs
    (Local (JStr "r1") Receiving) =
  Some (rs, Local (JStr "r1") Receiving, []).
Proof.
  intros rs. split.
  - apply unknown_action_ignored; [reflexivity |].
    repeat split; discriminate.
  - apply unknown_action_ignored; [reflexivity |].
    repeat split; discriminate.
Defined.



Lemma iterate_ended ws rm peers msg ctx (rs : registry) :
  ctx ≠ InBody → ended (iterate ws rm peers msg ctx rs).2.
Proof.
  intros Hctx. destruct peers as [| p rest]; [| by destruct ctx].
  destruct ctx; [done | apply cleanup_ended | done].
Qed.

Lemma raise_ended ws rm e (rs : registry) : ended (raise ws rm e rs).2.
Proof. apply cleanup_ended. Qed.

Lemma on_leave_ended ws rm (rs : registry) :
  ended (at_pc (on_leave ws rm rs).2).
Proof.
  unfold on_leave.
  match goal with
  | |- ended (at_pc (let '(_, _) := ?e in _).2) =>
      assert (ended e.2) as He; [| by destruct e]
  end.
  destruct (truthy rm); [| apply cleanup_ended].
  destruct (hash_key rm) as [k |]; [| apply raise_ended].
  destruct (rs !! k) as [S |]; [| apply cleanup_ended].
  case_decide; [apply cleanup_ended | by apply iterate_ended].
Qed.

(** An ended handler stays ended and takes no frame. *)
Lemma ended_step ws ev (rs : registry) l rs' l' t :
  handle_client ws ev rs l = Some (rs', l', t) →
  ended (at_pc l) →
  ended (at_pc l') ∧ ¬ is_frame ev.
Proof.
  intros Hstep Hend. unfold handle_client in Hstep.
  destruct (at_pc l) as [| msg b | p rest msg ctx | exc], ev as [f | | | e];
    try discriminate; try done.
  - pose proof (iterate_ended ws (room l) rest msg ctx rs) as Hi.
    destruct (iterate ws (room l) rest msg ctx rs). simplify_eq.
    split; [| by intros []]. apply Hi. by destruct ctx.
  - split; [| by intros []]. destruct ctx; [done | |].
    + pose proof (raise_ended ws (room l) e rs) as Hr.
      destruct (raise ws (room l) e rs). by simplify_eq.
    + pose proof (iterate_ended ws (room l) rest msg (InCleanup pending) rs)
        as Hi.
      destruct (iterate ws (room l) rest msg (InCleanup pending) rs).
      simplify_eq. by apply Hi.
Qed.

Lemma ended_run ws evs (rs : registry) l rs' l' t :
  run_handler ws evs rs l = Some (rs', l', t) →
  ended (at_pc l) →
  ended (at_pc l') ∧ Forall (λ ev, ¬ is_frame ev) evs.
Proof.
  revert rs l t. induction evs as [| ev evs IH]; intros rs l t Hrun Hend.
  - simpl in Hrun. by simplify_eq.
  - cbn [run_handler] in Hrun.
    destruct (handle_client ws ev rs l) as [[[rs1 l1] t1] |] eqn:Hstep; [| done].
    destruct (run_handler ws evs rs1 l1) as [[[rs2 l2] t2] |] eqn:Hrest; [| done].
    simplify_eq. destruct (ended_step _ _ _ _ _ _ _ Hstep Hend) as [Hend1 Hnf].
    destruct (IH _ _ _ Hrest Hend1). split; [done | by constructor].
Qed.

Lemma ending_event_step ws ev (rs : registry) l rs' l' t :
  handle_client ws ev rs l = Some (rs', l', t) →
  ending_event ev → ended (at_pc l').
Proof.
  intros Hstep Hev. unfold handle_client in Hstep.
  destruct (at_pc l) as [| msg b | p rest msg ctx | exc], ev as [f | | | e];
    try discriminate; try done.
  - cbn [ending_event] in Hev. unfold on_frame in Hstep.
    destruct f as [| data].
    { pose proof (raise_ended ws (room l) JSONDecodeError rs) as Hr.
      destruct (raise ws (room l) JSONDecodeError rs). by simplify_eq. }
    destruct data as [| | | | | items];
      try (pose proof (raise_ended ws (room l) AttributeError rs) as Hr;
           destruct (raise ws (room l) AttributeError rs); by simplify_eq).
    destruct Hev as [Hf | (items' & [= <-] & Ha)]; [done |].
    rewrite Ha in Hstep. cbn in Hstep.
    pose proof (on_leave_ended ws (room l) rs) as Hl.
    destruct (on_leave ws (room l) rs). by simplify_eq.
  - pose proof (cleanup_ended ws (room l) None rs) as Hc.
    destruct (cleanup ws (room l) None rs). by simplify_eq.
  - pose proof (raise_ended ws (room l) e rs) as Hr.
    destruct (raise ws (room l) e rs). by simplify_eq.
  - destruct ctx.
    + pose proof (raise_ended ws (room l) e rs) as Hr.
      destruct (raise ws (room l) e rs). by simplify_eq.
    + pose proof (raise_ended ws (room l) e rs) as Hr.
      destruct (raise ws (room l) e rs). by simplify_eq.
    + pose proof (iterate_ended ws (room l) rest msg (InCleanup pending) rs)
        as Hi.
      destruct (iterate ws (room l) rest msg (InCleanup pending) rs).
      simplify_eq. by apply Hi.
Qed.

(** The message loop ends on a leave envelope, on a closed channel, on a
    frame that does not parse to an object and on a send that raises: from
    then on the handler takes no frame, whatever its sends do. *)
Theorem loop_ends ws ev evs (rs : registry) l rs' l' t :
  ending_event ev →
  run_handler ws (ev :: evs) rs l = Some (rs', l', t) →
  ended (at_pc l') ∧ Forall (λ ev', ¬ is_frame ev') evs.
Proof.
  intros Hev Hrun. cbn [run_handler] in Hrun.
  destruct (handle_client ws ev rs l) as [[[rs1 l1] t1] |] eqn:Hstep; [| done].
  destruct (run_handler ws evs rs1 l1) as [[[rs2 l2] t2] |] eqn:Hrest; [| done].
  simplify_eq. eapply ended_run; [done |]. by eapply ending_event_step.
Qed.

Lemma loop_ends_witness :
  let evs := [SendOk; SendRaise ConnectionClosed] in
  let rs := rooms (config_of pair_in_r1) in
  let rs' := rooms (config_of (pair_in_r1 ++ [Resume 1 Closed])) in
  run_handler 1 (Frame leave_frame :: evs) rs (Local (JStr "r1") Receiving) =
    Some (rs', Local (JStr "r1") (Finished None),
          [Delivered 2 (peer_left_msg (JStr "r1"));
           Failed 2 (peer_left_msg (JStr "r1")) ConnectionClosed]) ∧
  ended (Finished None) ∧ Forall (λ ev', ¬ is_frame ev') evs.
Proof.
  intros evs rs rs'.
  assert (run_handler 1 (Frame leave_frame :: evs) rs
            (Local (JStr "r1") Receiving) =
          Some (rs', Local (JStr "r1") (Finished None),
                [Delivered 2 (peer_left_msg (JStr "r1"));
                 Failed 2 (peer_left_msg (JStr "r1")) ConnectionClosed]))
    as Hrun by (vm_compute; reflexivity).
  split; [exact Hrun |].
  apply (loop_ends 1 (Frame leave_frame) evs rs (Local (JStr "r1") Receiving)
           rs' (Local (JStr "r1") (Finished None))
           [Delivered 2 (peer_left_msg (JStr "r1"));
            Failed 2 (peer_left_msg (JStr "r1")) ConnectionClosed]);
    [| exact Hrun].
  right. exists [("action", JStr "leave")]. split; reflexivity.
Defined.

(** ** A handler that tracks no room *)

Lemma raise_falsy ws rm e (rs : registry) :
  truthy rm = false → (raise ws rm e rs).1 = rs.
Proof. intros Ht. unfold raise. by rewrite cleanup_falsy. Qed.

Lemma iterate_falsy ws rm peers msg ctx (rs : registry) :
  truthy rm = false → (iterate ws rm peers msg ctx rs).1 = rs.
Proof.
  intros Ht. destruct peers; [| done].
  destruct ctx; cbn [iterate]; [done | by rewrite cleanup_falsy | done].
Qed.

Lemma notify_join_falsy ws rm (rs : registry) :
  truthy rm = false → (notify_join ws rm rs).1 = rs.
Proof.
  intros Ht. unfold notify_join.
  destruct (hash_key rm) as [k |]; [| by apply raise_falsy].
  destruct (rs !! k); [apply iterate_body_rooms | by apply raise_falsy].
Qed.

Lemma on_leave_falsy ws rm (rs : registry) :
  truthy rm = false → on_leave ws rm rs = (rs, Local rm (Finished None)).
Proof. intros Ht. unfold on_leave. by rewrite Ht, cleanup_falsy. Qed.

Lemma on_frame_falsy ws rm f (rs : registry) :
  truthy rm = false → ¬ join_envelope (Frame f) →
  (on_frame ws rm f rs).1 = rs.
Proof.
  intros Ht Hnj. unfold on_frame.
  destruct f as [| data].
  { pose proof (raise_falsy ws rm JSONDecodeError rs Ht).
    by destruct (raise ws rm JSONDecodeError rs). }
  destruct data as [| | | | | items];
    try (pose proof (raise_falsy ws rm AttributeError rs Ht);
         by destruct (raise ws rm AttributeError rs)).
  destruct (dict_get "action" items) as [| | | a | |] eqn:Ha; try done.
  destruct (String.eqb_spec a "join") as [-> | _].
  { destruct Hnj. by exists items. }
  destruct (String.eqb a "relay"); [apply on_relay_rooms |].
  destruct (String.eqb a "leave"); [by rewrite on_leave_falsy | done].
Qed.

Lemma falsy_room_step ws ev (rs : registry) l rs' l' t :
  truthy (room l) = false → ¬ join_envelope ev →
  handle_client ws ev rs l = Some (rs', l', t) →
  rs' = rs ∧ room l' = room l.
Proof.
  intros Ht Hnj Hstep. split.
  - unfold handle_client in Hstep.
    destruct (at_pc l) as [| msg b | p rest msg ctx | exc], ev as [f | | | e];
      try discriminate.
    + pose proof (on_frame_falsy ws (room l) f rs Ht Hnj).
      destruct (on_frame ws (room l) f rs). by simplify_eq.
    + rewrite cleanup_falsy in Hstep by done. by simplify_eq.
    + destruct b; [| by simplify_eq].
      pose proof (notify_join_falsy ws (room l) rs Ht).
      destruct (notify_join ws (room l) rs). by simplify_eq.
    + pose proof (raise_falsy ws (room l) e rs Ht).
      destruct (raise ws (room l) e rs). by simplify_eq.
    + pose proof (iterate_falsy ws (room l) rest msg ctx rs Ht).
      destruct (iterate ws (room l) rest msg ctx rs). by simplify_eq.
    + destruct ctx.
      * pose proof (raise_falsy ws (room l) e rs Ht).
        destruct (raise ws (room l) e rs). by simplify_eq.
      * pose proof (raise_falsy ws (room l) e rs Ht).
        destruct (raise ws (room l) e rs). by simplify_eq.
      * pose proof (iterate_falsy ws (room l) rest msg (InCleanup pending) rs Ht).
        destruct (iterate ws (room l) rest msg (InCleanup pending) rs).
        by simplify_eq.
  - destruct (handle_client_room _ _ _ _ _ _ _ Hstep)
      as [-> | (items & -> & Ha & _)]; [done |].
    destruct Hnj. by exists items.
Qed.

Lemma falsy_room_run ws evs (rs : registry) l rs' l' t :
  truthy (room l) = false →
  Forall (λ ev, ¬ join_envelope ev) evs →
  run_handler ws evs rs l = Some (rs', l', t) →
  rs' = rs ∧ room l' = room l.
Proof.
  revert rs l t. induction evs as [| ev evs IH]; intros rs l t Ht Hnj Hrun.
  - simpl in Hrun. by simplify_eq.
  - cbn [run_handler] in Hrun.
    destruct (handle_client ws ev rs l) as [[[rs1 l1] t1] |] eqn:Hstep; [| done].
    destruct (run_handler ws evs rs1 l1) as [[[rs2 l2] t2] |] eqn:Hrest; [| done].
    simplify_eq. apply Forall_cons in Hnj as [Hev Hnj].
    destruct (falsy_room_step _ _ _ _ _ _ _ Ht Hev Hstep) as [-> Hr].
    rewrite <- Hr in Ht. destruct (IH _ _ _ Ht Hnj Hrest) as [-> ->].
    done.
Qed.

(** A handler that has not joined (its [room] is [None]) leaves the
    registry as it is on every event but a join envelope: relay, leave,
    close, malformed frames. *)
Theorem unjoined_handler_inert ws evs (rs : registry) rs' l' t :
  Forall (λ ev, ¬ join_envelope ev) evs →
  run_handler ws evs rs initial_local = Some (rs', l', t) →
  rs' = rs ∧ room l' = JNull.
Proof. intros Hnj Hrun. by eapply (falsy_room_run ws evs rs initial_local). Qed.

Lemma unjoined_handler_inert_witness :
  let evs := [Frame (relay_frame sdp); SendOk; Frame leave_frame] in
  let rs := rooms (config_of (pair_in_r1 ++ [Accept 3])) in
  let rs' := rooms (config_of (pair_in_r1 ++
                                 [Accept 3; Resume 3 (Frame (relay_frame sdp));
                                  Resume 3 SendOk;
                                  Resume 3 (Frame leave_frame)])) in
  run_handler 3 evs rs initial_local =
    Some (rs', Local JNull (Finished None),
          [Delivered 3 (error_msg "Not in a room")]) ∧
  rs' = rs.
Proof.
  intros evs rs rs'.
  assert (Forall (λ ev, ¬ join_envelope ev) evs) as Hnj
    by (repeat constructor; intros (items & [= <-] & [=])).
  assert (run_handler 3 evs rs initial_local =
          Some (rs', Local JNull (Finished None),
                [Delivered 3 (error_msg "Not in a room")])) as Hrun
    by (vm_compute; reflexivity).
  split; [exact Hrun |].
  apply (unjoined_handler_inert 3 evs rs rs' _ _ Hnj Hrun).
Defined.

(** A join envelope without a room makes the handler forget the room it
    tracked: from then on, until the next join envelope, it leaves the
    registry as it is, so a close or a leave no longer discards the
    connection from the room it had joined. *)
Theorem join_without_room_forgets ws (l : local) items evs
    (rs : registry) rs' l' t :
  at_pc l = Receiving →
  dict_get "action" items = JStr "join" →
  truthy (dict_get "room" items) = false →
  Forall (λ ev, ¬ join_envelope ev) evs →
  run_handler ws (Frame (Parsed (JObj items)) :: evs) rs l = Some (rs', l', t) →
  rs' = rs ∧ room l' = dict_get "room" items.
Proof.
  intros Hpc Ha Ht Hnj Hrun. cbn [run_handler] in Hrun.
  unfold handle_client at 1 in Hrun. rewrite Hpc, on_frame_join in Hrun by done.
  unfold on_join in Hrun. rewrite Ht in Hrun. cbn [negb] in Hrun.
  destruct (run_handler ws evs rs _) as [[[rs2 l2] t2] |] eqn:Hrest; [| done].
  simplify_eq.
  by apply (falsy_room_run ws evs rs
              (Local (dict_get "room" items)
                 (Replying (error_msg "Missing room") false))
              rs' l' t2 Ht Hnj Hrest).
Qed.

Lemma join_without_room_forgets_witness :
  let evs := [SendOk; Closed] in
  let rs := rooms (config_of pair_in_r1) in
  let rs' := rooms (config_of (pair_in_r1 ++
                                 [Resume 1 (Frame (Parsed (JObj [("action", JStr "join")])));
                                  Resume 1 SendOk; Resume 1 Closed])) in
  run_handler 1 (Frame (Parsed (JObj [("action", JStr "join")])) :: evs)
    rs (Local (JStr "r1") Receiving) =
    Some (rs', Local JNull (Finished None),
          [Delivered 1 (error_msg "Missing room")]) ∧
  rs' = rs ∧
  1 ∈ members rs' (KStr "r1").
Proof.
  intros evs rs rs'.
  assert (Forall (λ ev, ¬ join_envelope ev) evs) as Hnj
    by (repeat constructor; intros (items & [=] & _)).
  assert (run_handler 1 (Frame (Parsed (JObj [("action", JStr "join")])) :: evs)
            rs (Local (JStr "r1") Receiving) =
          Some (rs', Local JNull (Finished None),
                [Delivered 1 (error_msg "Missing room")])) as Hrun
    by (vm_compute; reflexivity).
  split; [exact Hrun |]. split.
  - apply (join_without_room_forgets 1 (Local (JStr "r1") Receiving)
             [("action", JStr "join")] evs rs rs' _ _
             eq_refl eq_refl eq_refl Hnj Hrun).
  - assert (members rs' (KStr "r1") = {[1; 2]}) as ->
      by (vm_compute; reflexivity).
    set_solver.
Defined.

(** A leave envelope or a closed channel, when the handler tracks no room
    or a room that is not in the registry, changes nothing and sends
    nothing. *)
Theorem leave_without_room ws ev (l : local) (rs : registry) :
  at_pc l = Receiving →
  truthy (room l) = false ∨ (∃ k, hash_key (room l) = Some k ∧ rs !! k = None) →
  ev = Closed ∨
    (∃ items, ev = Frame (Parsed (JObj items)) ∧
              dict_get "action" items = JStr "leave") →
  handle_client ws ev rs l = Some (rs, Local (room l) (Finished None), []).
Proof.
  intros Hpc Hroom Hev.
  assert (cleanup ws (room l) None rs = (rs, Finished None)) as Hc.
  { destruct Hroom as [Ht | (k & Hk & Hrs)];
      [by apply cleanup_falsy | by eapply cleanup_absent]. }
  unfold handle_client. rewrite Hpc.
  destruct Hev as [-> | (items & -> & Ha)]; [by rewrite Hc |].
  rewrite on_frame_leave by done. unfold on_leave.
  destruct Hroom as [Ht | (k & Hk & Hrs)].
  - by rewrite Ht, Hc.
  - rewrite Hk, Hrs, Hc. by destruct (truthy (room l)).
Qed.

Lemma leave_without_room_witness :
  let rs := rooms (config_of pair_in_r1) in
  handle_client 3 (Frame leave_frame) rs initial_local =
    Some (rs, Local JNull (Finished None), []) ∧
  handle_client 3 Closed rs (Local (JStr "r7") Receiving) =
    Some (rs, Local (JStr "r7") (Finished None), []).
Proof.
  intros rs. split.
  - apply (leave_without_room 3 (Frame leave_frame) initial_local rs);
      [reflexivity | by left |].
    right. exists [("action", JStr "leave")]. split; reflexivity.
  - apply (leave_without_room 3 Closed (Local (JStr "r7") Receiving) rs);
      [reflexivity | | by left].
    right. exists (KStr "r7"). split; [reflexivity | vm_compute; reflexivity].
Defined.

(** A connection alone in a room that joins it again gets [joined] with
    [peers] 1; the registry is as before and no one else is notified. *)
Theorem rejoin_alone ws (l : local) items (rs : registry) k S :
  at_pc l = Receiving →
  dict_get "action" items = JStr "join" →
  truthy (dict_get "room" items) = true →
  hash_key (dict_get "room" items) = Some k →
  rs !! k = Some S → ws ∈ S → (size S < 2)%nat →
  run_handler ws [Frame (Parsed (JObj items)); SendOk] rs l =
    Some (rs, Local (dict_get "room" items) Receiving,
          [Delivered ws (joined_msg (dict_get "room" items) 1)]).
Proof.
  intros Hpc Ha Ht Hk HS Hin Hsz.
  assert (S = {[ws]}) as ->.
  { assert (size S = 1%nat) as H1.
    { assert (size S ≠ 0%nat); [| lia].
      rewrite size_zero_empty. set_solver. }
    apply size_1_elem_of in H1 as [x Hx]. unfold_leibniz. set_solver. }
  cbn [run_handler]. unfold handle_client at 1.
  rewrite Hpc, on_frame_join by done.
  destruct (on_join_outcome ws items rs) as [| | k' _ Hk' Hge | k' _ Hk' _];
    try congruence.
  { assert (k' = k) as -> by congruence.
    rewrite (members_lookup _ _ _ HS) in Hge. lia. }
  assert (k' = k) as -> by congruence.
  rewrite (members_lookup _ _ _ HS).
  assert (({[ws]} : gset conn) ∪ {[ws]} = {[ws]}) as -> by set_solver.
  rewrite size_singleton, (insert_id rs k {[ws]}) by done.
  unfold handle_client. cbn [at_pc room]. unfold notify_join.
  rewrite Hk, HS. unfold others. rewrite elements_singleton.
  rewrite filter_cons_False by (intros ?; congruence). by rewrite filter_nil.
Qed.

Lemma rejoin_alone_witness :
  let rs := rooms (config_of (join_alone 1 (JStr "r1"))) in
  run_handler 1 [Frame (join_frame (JStr "r1")); SendOk] rs
    (Local (JStr "r1") Receiving) =
  Some (rs, Local (JStr "r1") Receiving,
        [Delivered 1 (joined_msg (JStr "r1") 1)]).
Proof.
  intros rs.
  apply (rejoin_alone 1 (Local (JStr "r1") Receiving)
           [("action", JStr "join"); ("room", JStr "r1")] rs (KStr "r1") {[1]}).
  - reflexivity.
  - reflexivity.
  - reflexivity.
  - reflexivity.
  - vm_compute. reflexivity.
  - set_solver.
  - rewrite size_singleton. lia.
Defined.

(** ** Invariants of the server: who is a member of what *)

Lemma run_invariant (P : config → Prop) :
  (∀ a σ σ' t, P σ → sys_step a σ = Some (σ', t) → P σ') →
  ∀ sched σ σ' t, run sched σ = Some (σ', t) → P σ → P σ'.
Proof.
  intros Hstep sched. induction sched as [| a rest IH]; intros σ σ' t Hrun HP.
  - simpl in Hrun. by simplify_eq.
  - simpl in Hrun.
    destruct (sys_step a σ) as [[σ1 t1] |] eqn:Hs; [| done].
    destruct (run rest σ1) as [[σ2 t2] |] eqn:Hr; [| done].
    simplify_eq. eapply IH; [done |]. by eapply Hstep.
Qed.

Lemma reachable_invariant (P : config → Prop) :
  P initial_config →
  (∀ a σ σ' t, P σ → sys_step a σ = Some (σ', t) → P σ') →
  ∀ σ, reachable σ → P σ.
Proof.
  intros Hinit Hstep σ (sched & t & Hrun). by eapply run_invariant.
Qed.

(** What a step of one handler looks like from the configuration. *)
Lemma sys_step_resume ws ev σ σ' t :
  sys_step (Resume ws ev) σ = Some (σ', t) →
  ∃ l l', handlers σ !! ws = Some l ∧
          handle_client ws ev (rooms σ) l = Some (rooms σ', l', t) ∧
          handlers σ' = <[ws := l']> (handlers σ).
Proof.
  intros Hstep. simpl in Hstep.
  destruct (handlers σ !! ws) as [l |]; [| done].
  destruct (handle_client ws ev (rooms σ) l) as [[[rs' l'] t'] |] eqn:Hh;
    [| done].
  simplify_eq. by exists l, l'.
Qed.

Lemma sys_step_accept ws σ σ' t :
  sys_step (Accept ws) σ = Some (σ', t) →
  handlers σ !! ws = None ∧ rooms σ' = rooms σ ∧
  handlers σ' = <[ws := initial_local]> (handlers σ).
Proof.
  intros Hstep. simpl in Hstep.
  destruct (handlers σ !! ws) eqn:Hws; by simplify_eq.
Qed.

Lemma step_other_member ws ev (rs : registry) l rs' l' t p k :
  handle_client ws ev rs l = Some (rs', l', t) → p ≠ ws →
  p ∈ members rs' k ↔ p ∈ members rs k.
Proof.
  intros Hstep Hp.
  destruct (handle_client_reg_change _ _ _ _ _ _ _ Hstep)
    as [-> | (k0 & _ & Hc)]; [done |].
  by eapply reg_change_other_member.
Qed.

(** The handler whose [joined] reply is pending has just been added. *)
Lemma on_frame_joiner ws rm f (rs : registry) msg :
  at_pc (on_frame ws rm f rs).2 = Replying msg true →
  ∃ k, hash_key (room (on_frame ws rm f rs).2) = Some k ∧
       ws ∈ members (on_frame ws rm f rs).1 k.
Proof.
  intros Hpc.
  assert (∀ e, at_pc (let '(rs', p) := raise ws rm e rs in
                      (rs', Local rm p)).2 ≠ Replying msg true) as Hraise.
  { intros e. pose proof (raise_ended ws rm e rs) as He.
    destruct (raise ws rm e rs) as [rs1 p1]. cbn [snd at_pc] in *.
    by destruct p1. }
  unfold on_frame in *. destruct f as [| data]; [by edestruct Hraise |].
  destruct data as [| | | | | items]; try by edestruct Hraise.
  destruct (dict_get "action" items) as [| | | a | |]; try done.
  destruct (String.eqb a "join").
  { destruct (on_join_outcome ws items rs) as [| | | k]; try done.
    exists k. split; [done |]. cbn [fst]. unfold members at 1.
    rewrite lookup_insert_eq. cbn [default]. set_solver. }
  destruct (String.eqb a "relay").
  { destruct (on_relay_outcome ws rm items rs); try done.
    cbn [snd at_pc] in Hpc.
    by destruct (others ws S). }
  destruct (String.eqb a "leave"); [| done].
  pose proof (on_leave_ended ws rm rs) as He. rewrite Hpc in He. done.
Qed.

Lemma joiner_is_member_step a σ σ' t :
  joiner_is_member σ → sys_step a σ = Some (σ', t) → joiner_is_member σ'.
Proof.
  intros Hinv Hstep ws' l' msg Hl' Hpc. destruct a as [ws | ws ev].
  - apply sys_step_accept in Hstep as (_ & Hrs & Hh).
    rewrite Hh in Hl'. rewrite Hrs.
    apply lookup_insert_Some in Hl' as [[_ <-] | [_ Hl']]; [done |].
    by eapply Hinv.
  - apply sys_step_resume in Hstep as (l & l1 & Hl & Hstep & Hh).
    rewrite Hh in Hl'.
    apply lookup_insert_Some in Hl' as [[<- <-] | [Hne Hl']].
    + destruct (handler_step_reply _ _ _ _ _ _ _ _ _ Hstep Hpc)
        as (_ & _ & f & -> & Hf).
      pose proof (on_frame_joiner ws (room l) f (rooms σ) msg) as Hj.
      rewrite Hf in Hj. by apply Hj.
    + destruct (Hinv _ _ _ Hl' Hpc) as (k & Hk & Hin). exists k.
      split; [done |]. by rewrite (step_other_member _ _ _ _ _ _ _ ws' k Hstep).
Qed.

Lemma reachable_joiner_is_member σ : reachable σ → joiner_is_member σ.
Proof.
  apply reachable_invariant; [| by apply joiner_is_member_step].
  intros ws l msg Hl. simpl in Hl. rewrite lookup_empty in Hl. discriminate.
Qed.

(** In every execution, whatever the other connections do while the
    [joined] reply is being sent, the room is still there, with the joiner
    in it, when the handler comes to notify the peers: the lookup of line
    61 does not raise, and the handler goes on with the [peer_joined]
    notifications or, when it is alone, with the next frame. *)
Theorem join_notification_safe σ ws l msg :
  reachable σ →
  handlers σ !! ws = Some l →
  at_pc l = Replying msg true →
  ∃ k S,
    hash_key (room l) = Some k ∧ rooms σ !! k = Some S ∧ ws ∈ S ∧
    handle_client ws SendOk (rooms σ) l =
      Some (rooms σ,
            Local (room l)
              (match others ws S with
               | [] => Receiving
               | p :: rest =>
                   Notifying p rest (peer_joined_msg (room l)) InBody
               end),
            [Delivered ws msg]).
Proof.
  intros Hreach Hl Hpc.
  destruct (reachable_joiner_is_member _ Hreach _ _ _ Hl Hpc) as (k & Hk & Hin).
  unfold members in Hin. destruct (rooms σ !! k) as [S |] eqn:HS;
    cbn [default] in Hin; [| set_solver].
  exists k, S. repeat split; try done.
  unfold handle_client. rewrite Hpc. unfold notify_join. rewrite Hk, HS.
  by destruct (others ws S).
Qed.

Lemma join_notification_safe_witness :
  let σ := config_of [Accept 1; Resume 1 (Frame (join_frame (JStr "r1")));
                      Accept 2; Resume 2 (Frame (join_frame (JStr "r1")))] in
  reachable σ ∧
  handlers σ !! 1 = Some (Local (JStr "r1")
                            (Replying (joined_msg (JStr "r1") 1) true)) ∧
  ∃ k S, hash_key (JStr "r1") = Some k ∧ rooms σ !! k = Some S ∧ 1 ∈ S.
Proof.
  intros σ.
  assert (reachable σ) as Hreach.
  { apply run_config_of. vm_compute. eexists. reflexivity. }
  assert (handlers σ !! 1 =
          Some (Local (JStr "r1") (Replying (joined_msg (JStr "r1") 1) true)))
    as Hl by (vm_compute; reflexivity).
  split; [exact Hreach |]. split; [exact Hl |].
  destruct (join_notification_safe σ 1 _ _ Hreach Hl eq_refl)
    as (k & S & Hk & HS & Hin & _).
  by exists k, S.
Defined.

(** After the [finally] block, and after the discard of the leave branch,
    the connection is not in the room the handler tracks. *)
Lemma cleanup_gone ws rm exc (rs : registry) k :
  rooms_ok rs → hash_key rm = Some k →
  ws ∉ members (cleanup ws rm exc rs).1 k.
Proof.
  intros Hok Hk. unfold cleanup.
  destruct (truthy rm) eqn:Ht.
  - rewrite Hk. destruct (rs !! k) as [S |] eqn:HS.
    + case_decide; cbn [fst]; unfold members.
      * rewrite lookup_delete_eq. set_solver.
      * rewrite lookup_insert_eq. set_solver.
    + cbn [fst]. unfold members. rewrite HS. set_solver.
  - cbn [fst]. unfold members.
    destruct (rs !! k) as [S |] eqn:HS; [| set_solver].
    destruct (Hok _ _ HS) as (_ & _ & Hkt).
    rewrite (hash_key_truthy _ _ Hk) in Ht. congruence.
Qed.

Lemma iterate_gone ws rm peers msg ctx (rs : registry) k :
  rooms_ok rs → hash_key rm = Some k →
  (ctx ≠ InBody → ws ∉ members rs k) →
  ended (iterate ws rm peers msg ctx rs).2 →
  ws ∉ members (iterate ws rm peers msg ctx rs).1 k.
Proof.
  intros Hok Hk Hold Hend. destruct peers as [| p rest].
  - destruct ctx; cbn [iterate] in *; [done | by apply cleanup_gone |].
    by apply Hold.
  - cbn [iterate fst snd] in *. apply Hold. by destruct ctx.
Qed.

Lemma on_leave_gone ws rm (rs : registry) k :
  rooms_ok rs → hash_key rm = Some k →
  ws ∉ members (on_leave ws rm rs).1 k.
Proof.
  intros Hok Hk. unfold on_leave.
  match goal with
  | |- _ ∉ members (let '(_, _) := ?e in _).1 _ =>
      assert (ws ∉ members e.1 k) as He; [| by destruct e]
  end.
  destruct (truthy rm) eqn:Ht; [| by apply cleanup_gone].
  rewrite Hk. destruct (rs !! k) as [S |] eqn:HS; [| by apply cleanup_gone].
  case_decide.
  - rewrite (cleanup_absent _ _ _ _ k) by (done || apply lookup_delete_eq).
    cbn [fst]. unfold members. rewrite lookup_delete_eq. set_solver.
  - destruct (elements (S ∖ {[ws]})) as [| p rest] eqn:Hel.
    + cbn [iterate]. apply cleanup_gone; [| done].
      destruct (Hok _ _ HS) as (_ & Hle & Hkt).
      apply rooms_ok_insert; [done | | | done].
      * by rewrite <- size_zero_empty.
      * pose proof (size_discard S ws). lia.
    + cbn [iterate fst]. unfold members. rewrite lookup_insert_eq. set_solver.
Qed.

Lemma on_frame_gone ws rm f (rs : registry) k :
  rooms_ok rs →
  ended (at_pc (on_frame ws rm f rs).2) →
  hash_key (room (on_frame ws rm f rs).2) = Some k →
  ws ∉ members (on_frame ws rm f rs).1 k.
Proof.
  intros Hok.
  assert (∀ e,
    hash_key (room (let '(rs', p) := raise ws rm e rs in
                    (rs', Local rm p)).2) = Some k →
    ws ∉ members (let '(rs', p) := raise ws rm e rs in
                  (rs', Local rm p)).1 k) as Hraise.
  { intros e Hk. unfold raise in *.
    pose proof (cleanup_gone ws rm
                  (match e with ConnectionClosed => None | _ => Some e end)
                  rs k Hok) as Hg.
    destruct (cleanup ws rm _ rs). cbn [fst snd room] in *. by apply Hg. }
  unfold on_frame. destruct f as [| data]; [intros _; apply Hraise |].
  destruct data as [| | | | | items]; try (intros _; apply Hraise).
  destruct (dict_get "action" items) as [| | | a | |]; try done.
  destruct (String.eqb a "join").
  { destruct (on_join_outcome ws items rs); cbn [snd at_pc room]; try done.
    congruence. }
  destruct (String.eqb a "relay").
  { destruct (on_relay_outcome ws rm items rs); cbn [snd at_pc room];
      try done; [congruence |].
    by destruct (others ws S). }
  destruct (String.eqb a "leave"); [| done].
  intros _. rewrite on_leave_room. by apply on_leave_gone.
Qed.

Lemma notify_join_gone ws rm (rs : registry) k :
  rooms_ok rs → hash_key rm = Some k →
  ended (notify_join ws rm rs).2 →
  ws ∉ members (notify_join ws rm rs).1 k.
Proof.
  intros Hok Hk. unfold notify_join, raise. rewrite Hk.
  destruct (rs !! k) as [S |]; [| intros _; by apply cleanup_gone].
  by destruct (others ws S).
Qed.

Lemma step_gone ws ev (rs : registry) l rs' l' t k :
  handle_client ws ev rs l = Some (rs', l', t) →
  rooms_ok rs →
  (ended (at_pc l) → hash_key (room l) = Some k → ws ∉ members rs k) →
  ended (at_pc l') →
  hash_key (room l') = Some k →
  ws ∉ members rs' k.
Proof.
  intros Hstep Hok Hold Hend Hk. unfold handle_client in Hstep.
  destruct (at_pc l) as [| msg b | p rest msg ctx | exc] eqn:Hpc,
           ev as [f | | | e]; try discriminate.
  - pose proof (on_frame_gone ws (room l) f rs k Hok) as Hg.
    destruct (on_frame ws (room l) f rs). simplify_eq. by apply Hg.
  - pose proof (cleanup_gone ws (room l) None rs k Hok) as Hg.
    destruct (cleanup ws (room l) None rs). simplify_eq. by apply Hg.
  - destruct b; [| by simplify_eq].
    pose proof (notify_join_gone ws (room l) rs k Hok) as Hg.
    destruct (notify_join ws (room l) rs). simplify_eq. by apply Hg.
  - pose proof (cleanup_gone ws (room l)
                  (match e with ConnectionClosed => None | _ => Some e end)
                  rs k Hok) as Hg.
    unfold raise in Hstep. destruct (cleanup ws (room l) _ rs).
    simplify_eq. by apply Hg.
  - pose proof (iterate_gone ws (room l) rest msg ctx rs k Hok) as Hg.
    destruct (iterate ws (room l) rest msg ctx rs). simplify_eq.
    apply Hg; [done | | done]. intros Hctx. apply Hold; [| done].
    by destruct ctx.
  - destruct ctx.
    + pose proof (cleanup_gone ws (room l)
                    (match e with ConnectionClosed => None | _ => Some e end)
                    rs k Hok) as Hg.
      unfold raise in Hstep. destruct (cleanup ws (room l) _ rs).
      simplify_eq. by apply Hg.
    + pose proof (cleanup_gone ws (room l)
                    (match e with ConnectionClosed => None | _ => Some e end)
                    rs k Hok) as Hg.
      unfold raise in Hstep. destruct (cleanup ws (room l) _ rs).
      simplify_eq. by apply Hg.
    + pose proof (iterate_gone ws (room l) rest msg (InCleanup pending) rs k Hok)
        as Hg.
      destruct (iterate ws (room l) rest msg (InCleanup pending) rs).
      simplify_eq. apply Hg; [done | | done]. intros _. by apply Hold.
Qed.

Lemma ended_is_gone_step a σ σ' t :
  rooms_ok (rooms σ) ∧ ended_is_gone σ →
  sys_step a σ = Some (σ', t) →
  rooms_ok (rooms σ') ∧ ended_is_gone σ'.
Proof.
  intros [Hok Hinv] Hstep. split; [by eapply sys_step_rooms_ok |].
  intros ws' l' k Hl' Hend Hk. destruct a as [ws | ws ev].
  - apply sys_step_accept in Hstep as (_ & Hrs & Hh).
    rewrite Hh in Hl'. rewrite Hrs.
    apply lookup_insert_Some in Hl' as [[_ <-] | [_ Hl']]; [done |].
    by eapply Hinv.
  - apply sys_step_resume in Hstep as (l & l1 & Hl & Hstep & Hh).
    rewrite Hh in Hl'.
    apply lookup_insert_Some in Hl' as [[<- <-] | [Hne Hl']].
    + eapply step_gone; [done | done | | done | done].
      intros Hend0 Hk0. by eapply Hinv.
    + rewrite (step_other_member _ _ _ _ _ _ _ ws' k Hstep) by done.
      by eapply Hinv.
Qed.

(** In every execution, once the message loop of a handler is over (leave
    envelope, closed channel, exception), its connection is not a member
    of the room the handler tracks, whatever the other connections do. *)
Theorem ended_handler_not_member σ ws l k :
  reachable σ →
  handlers σ !! ws = Some l →
  ended (at_pc l) →
  hash_key (room l) = Some k →
  ws ∉ members (rooms σ) k.
Proof.
  intros Hreach.
  assert (rooms_ok (rooms σ) ∧ ended_is_gone σ) as [_ Hinv]; [| by apply Hinv].
  revert σ Hreach. apply reachable_invariant; [| by apply ended_is_gone_step].
  split; [apply rooms_ok_empty |].
  intros ws' l' k' Hl'. simpl in Hl'. rewrite lookup_empty in Hl'. discriminate.
Qed.

Lemma ended_handler_not_member_witness :
  let σ := config_of (pair_in_r1 ++ [Resume 1 Closed]) in
  reachable σ ∧
  handlers σ !! 1 =
    Some (Local (JStr "r1")
            (Notifying 2 [] (peer_left_msg (JStr "r1")) (InCleanup None))) ∧
  (1 ∉ members (rooms σ) (KStr "r1")).
Proof.
  intros σ.
  assert (reachable σ) as Hreach.
  { apply run_config_of. vm_compute. eexists. reflexivity. }
  assert (handlers σ !! 1 =
          Some (Local (JStr "r1")
                  (Notifying 2 [] (peer_left_msg (JStr "r1")) (InCleanup None))))
    as Hl by (vm_compute; reflexivity).
  split; [exact Hreach |]. split; [exact Hl |].
  apply (ended_handler_not_member σ 1 _ (KStr "r1") Hreach Hl); [exact I |].
  reflexivity.
Defined.

(** ** What goes on the wire *)

Lemma joined_count_bounds ws (rs : registry) k :
  (size (members rs k) < 2)%nat →
  (1 ≤ size (members rs k ∪ {[ws]}) ≤ 2)%nat.
Proof.
  intros Hsz. pose proof (size_add (members rs k) ws). split; [| lia].
  assert (size (members rs k ∪ {[ws]}) ≠ 0%nat); [| lia].
  rewrite size_zero_empty. set_solver.
Qed.

Lemma error_envelope text :
  text ∈ protocol_errors → server_envelope (error_msg text).
Proof. intros Ht. left. by exists text. Qed.

Lemma peer_envelope rm msg : peer_msg rm msg → server_envelope msg.
Proof. intros Hm. right. right. by exists rm. Qed.

Lemma peers_only_envelope ws rm carried p target msg :
  peers_only rm carried p →
  (∀ m, carried = Some m → server_envelope m) →
  pending_send ws (Local rm p) = Some (target, msg) →
  server_envelope msg.
Proof.
  intros Hp Hc Hpend. unfold pending_send in Hpend. cbn [at_pc] in Hpend.
  destruct p; try done. simplify_eq.
  destruct Hp as [Hp | Hp]; [by eapply peer_envelope | by apply Hc].
Qed.

Lemma on_frame_envelope ws rm f (rs : registry) target msg :
  pending_send ws (on_frame ws rm f rs).2 = Some (target, msg) →
  server_envelope msg.
Proof.
  assert (∀ l, peers_only (room l) None (at_pc l) →
               pending_send ws l = Some (target, msg) → server_envelope msg)
    as Hquiet.
  { intros [rm' p] Hp Hpend. eapply peers_only_envelope; [done | | done].
    by intros ? [=]. }
  assert (∀ e, pending_send ws (let '(rs', p) := raise ws rm e rs in
                                (rs', Local rm p)).2 = Some (target, msg) →
               server_envelope msg) as Hraise.
  { intros e. unfold raise.
    pose proof (cleanup_peers_only ws rm
                  (match e with ConnectionClosed => None | _ => Some e end)
                  rs None) as Hp.
    destruct (cleanup ws rm _ rs). by apply Hquiet. }
  unfold on_frame. destruct f as [| data]; [apply Hraise |].
  destruct data as [| | | | | items]; try apply Hraise.
  destruct (dict_get "action" items) as [| | | a | |]; try done.
  destruct (String.eqb a "join").
  { destruct (on_join_outcome ws items rs) as [| | | k];
      unfold pending_send; cbn [snd at_pc]; intros ?; simplify_eq.
    - apply error_envelope. unfold protocol_errors. set_solver.
    - apply error_envelope. unfold protocol_errors. set_solver.
    - right. left. eexists _, _. split; [done |].
      by apply joined_count_bounds. }
  destruct (String.eqb a "relay").
  { destruct (on_relay_outcome ws rm items rs);
      try (unfold pending_send; cbn [snd at_pc]; intros ?; simplify_eq;
           apply error_envelope; unfold protocol_errors; set_solver).
    apply Hquiet. cbn [snd room at_pc].
    apply iterate_fresh_peers_only. unfold peer_msg. eauto. }
  destruct (String.eqb a "leave"); [| done].
  apply Hquiet. rewrite on_leave_room. apply on_leave_peers_only.
Qed.

(** A step puts on the wire the message it was suspended at, and suspends
    at a server envelope if at any. *)
Lemma step_envelopes ws ev (rs : registry) l rs' l' t :
  handle_client ws ev rs l = Some (rs', l', t) →
  (∀ target msg, pending_send ws l = Some (target, msg) → server_envelope msg) →
  Forall (λ o, server_envelope (obs_msg o)) t ∧
  (∀ target msg, pending_send ws l' = Some (target, msg) → server_envelope msg).
Proof.
  intros Hstep Hold. unfold handle_client in Hstep. unfold pending_send in Hold.
  destruct (at_pc l) as [| msg b | p rest msg ctx | exc], ev as [f | | | e];
    try discriminate.
  - pose proof (on_frame_envelope ws (room l) f rs) as He.
    destruct (on_frame ws (room l) f rs). simplify_eq. split; [done |].
    intros target msg. apply He.
  - pose proof (cleanup_peers_only ws (room l) None rs None) as Hp.
    destruct (cleanup ws (room l) None rs). simplify_eq. split; [done |].
    intros target msg. eapply peers_only_envelope; [done |]. by intros ? [=].
  - assert (server_envelope msg) as Hmsg by (by eapply Hold).
    destruct b.
    + pose proof (notify_join_peers_only ws (room l) rs None) as Hp.
      destruct (notify_join ws (room l) rs). simplify_eq.
      split; [by apply Forall_singleton |].
      intros target m. eapply peers_only_envelope; [done |]. by intros ? [=].
    + simplify_eq. split; [by apply Forall_singleton | done].
  - assert (server_envelope msg) as Hmsg by (by eapply Hold).
    pose proof (cleanup_peers_only ws (room l)
                  (match e with ConnectionClosed => None | _ => Some e end)
                  rs None) as Hp.
    unfold raise in Hstep. destruct (cleanup ws (room l) _ rs). simplify_eq.
    split; [by apply Forall_singleton |].
    intros target m. eapply peers_only_envelope; [done |]. by intros ? [=].
  - assert (server_envelope msg) as Hmsg by (by eapply Hold).
    pose proof (iterate_peers_only ws (room l) rest msg ctx rs) as Hp.
    destruct (iterate ws (room l) rest msg ctx rs). simplify_eq.
    split; [by apply Forall_singleton |].
    intros target m. eapply peers_only_envelope; [done |]. by intros ? [= <-].
  - assert (server_envelope msg) as Hmsg by (by eapply Hold).
    assert (∃ q, peers_only (room l) (Some msg) q ∧ l' = Local (room l) q ∧
                 t = [Failed p msg e]) as (q & Hq & -> & ->).
    { destruct ctx.
      - pose proof (cleanup_peers_only ws (room l)
                      (match e with ConnectionClosed => None | _ => Some e end)
                      rs (Some msg)) as Hp.
        unfold raise in Hstep. destruct (cleanup ws (room l) _ rs).
        simplify_eq. eauto.
      - pose proof (cleanup_peers_only ws (room l)
                      (match e with ConnectionClosed => None | _ => Some e end)
                      rs (Some msg)) as Hp.
        unfold raise in Hstep. destruct (cleanup ws (room l) _ rs).
        simplify_eq. eauto.
      - pose proof (iterate_peers_only ws (room l) rest msg
                      (InCleanup pending) rs) as Hp.
        destruct (iterate ws (room l) rest msg (InCleanup pending) rs).
        simplify_eq. eauto. }
    split; [by apply Forall_singleton |].
    intros target m. eapply peers_only_envelope; [done |]. by intros ? [= <-].
Qed.

Lemma sys_step_envelopes a σ σ' t :
  pending_ok σ → sys_step a σ = Some (σ', t) →
  Forall (λ o, server_envelope (obs_msg o)) t ∧ pending_ok σ'.
Proof.
  intros Hinv Hstep. destruct a as [ws | ws ev].
  - assert (t = []) as ->.
    { simpl in Hstep. destruct (handlers σ !! ws); by simplify_eq. }
    apply sys_step_accept in Hstep as (_ & Hrs & Hh). split; [done |].
    intros ws' l' target msg Hl' Hpend. rewrite Hh in Hl'.
    apply lookup_insert_Some in Hl' as [[_ <-] | [_ Hl']]; [done |].
    by eapply Hinv.
  - apply sys_step_resume in Hstep as (l & l1 & Hl & Hstep & Hh).
    destruct (step_envelopes _ _ _ _ _ _ _ Hstep) as [Ht Hnew].
    { intros target msg. by apply Hinv. }
    split; [done |].
    intros ws' l' target msg Hl' Hpend. rewrite Hh in Hl'.
    apply lookup_insert_Some in Hl' as [[<- <-] | [_ Hl']];
      [by eapply Hnew | by eapply Hinv].
Qed.

Lemma run_envelopes sched σ σ' t :
  run sched σ = Some (σ', t) → pending_ok σ →
  Forall (λ o, server_envelope (obs_msg o)) t ∧ pending_ok σ'.
Proof.
  revert σ t. induction sched as [| a rest IH]; intros σ t Hrun Hinv.
  - simpl in Hrun. by simplify_eq.
  - simpl in Hrun.
    destruct (sys_step a σ) as [[σ1 t1] |] eqn:Hs; [| done].
    destruct (run rest σ1) as [[σ2 t2] |] eqn:Hr; [| done].
    simplify_eq. destruct (sys_step_envelopes _ _ _ _ Hinv Hs) as [Ht1 Hinv1].
    destruct (IH _ _ Hr Hinv1) as [Ht2 Hinv2].
    split; [by apply Forall_app | done].
Qed.

(** In every execution, every message the server sends or tries to send
    is one of its five envelopes: an error with one of the four protocol
    error strings, [joined] with [peers] 1 or 2, [peer_joined], [relayed]
    or [peer_left]. *)
Theorem wire_messages_are_envelopes sched σ t :
  run sched initial_config = Some (σ, t) →
  Forall (λ o, server_envelope (obs_msg o)) t.
Proof.
  intros Hrun. eapply run_envelopes; [done |].
  intros ws l target msg Hl. simpl in Hl. rewrite lookup_empty in Hl.
  discriminate.
Qed.

Lemma wire_messages_are_envelopes_witness :
  Forall (λ o, server_envelope (obs_msg o)) (trace_of refused_third_relays) ∧
  length (trace_of refused_third_relays) = 6%nat.
Proof.
  split; [| vm_compute; reflexivity].
  apply (wire_messages_are_envelopes refused_third_relays
           (config_of refused_third_relays)).
  vm_compute. reflexivity.
Defined.

(** ** Relay, close and join on their ordinary and odd inputs *)

(** A member of a room that relays a truthy payload: the payload goes, as
    received, to the other member if there is one, to no one if the
    sender is alone; the sender gets no reply, the registry is untouched
    and the loop goes on. *)
Theorem member_relay ws (l : local) items (rs : registry) k S :
  at_pc l = Receiving →
  dict_get "action" items = JStr "relay" →
  truthy (room l) = true →
  hash_key (room l) = Some k →
  rs !! k = Some S → ws ∈ S → (size S ≤ 2)%nat →
  truthy (dict_get "payload" items) = true →
  run_handler ws
    (Frame (Parsed (JObj items)) :: repeat SendOk (length (others ws S))) rs l
  = Some (rs, Local (room l) Receiving,
          map (λ p, Delivered p (relayed_msg (room l) (dict_get "payload" items)))
            (others ws S)) ∧
  (length (others ws S) ≤ 1)%nat ∧
  (∀ p, p ∈ others ws S ↔ p ∈ S ∧ p ≠ ws).
Proof.
  intros Hpc Ha Ht Hk HS Hin Hsz Hp. split; [| split].
  - by eapply relay_forwards_payload.
  - by apply member_relays_to_one.
  - intros p. apply elem_of_others.
Qed.

Lemma member_relay_witness :
  let rs := rooms (config_of pair_in_r1) in
  run_handler 1 [Frame (relay_frame sdp); SendOk] rs
    (Local (JStr "r1") Receiving) =
  Some (rs, Local (JStr "r1") Receiving,
        [Delivered 2 (relayed_msg (JStr "r1") sdp)]).
Proof.
  intros rs.
  destruct (member_relay 1 (Local (JStr "r1") Receiving)
              [("action", JStr "relay"); ("payload", sdp)] rs
              (KStr "r1") {[1; 2]}) as (Hrun & _ & _).
  - reflexivity.
  - reflexivity.
  - reflexivity.
  - reflexivity.
  - vm_compute. reflexivity.
  - set_solver.
  - vm_compute. lia.
  - reflexivity.
  - assert (others 1 ({[1; 2]} : gset conn) = [2]) as Ho
      by (vm_compute; reflexivity).
    rewrite Ho in Hrun. exact Hrun.
Defined.

(** A closed channel in a room shared with one peer: the connection is
    discarded, the peer is sent one [peer_left] and stays alone in the
    room; if that send raises, the exception is dropped and the outcome is
    the same. *)
Theorem close_notifies_peer ws p (l : local) (rs : registry) k :
  at_pc l = Receiving →
  truthy (room l) = true →
  hash_key (room l) = Some k →
  rs !! k = Some {[ws; p]} → p ≠ ws →
  run_handler ws [Closed; SendOk] rs l =
    Some (<[k := {[p]}]> rs, Local (room l) (Finished None),
          [Delivered p (peer_left_msg (room l))]) ∧
  ∀ e, run_handler ws [Closed; SendRaise e] rs l =
         Some (<[k := {[p]}]> rs, Local (room l) (Finished None),
               [Failed p (peer_left_msg (room l)) e]).
Proof.
  intros Hpc Ht Hk HS Hne.
  pose proof (close_with_one_peer ws p (room l) k None rs Ht Hk HS Hne) as Hc.
  split; [| intros e]; cbn [run_handler]; unfold handle_client at 1;
    rewrite Hpc, Hc; reflexivity.
Qed.

Lemma close_notifies_peer_witness :
  let rs := rooms (config_of pair_in_r1) in
  run_handler 2 [Closed; SendRaise ConnectionClosed] rs
    (Local (JStr "r1") Receiving) =
  Some (<[KStr "r1" := {[1]}]> rs, Local (JStr "r1") (Finished None),
        [Failed 1 (peer_left_msg (JStr "r1")) ConnectionClosed]).
Proof.
  intros rs.
  destruct (close_notifies_peer 2 1 (Local (JStr "r1") Receiving) rs (KStr "r1"))
    as [_ Hfail].
  - reflexivity.
  - reflexivity.
  - reflexivity.
  - vm_compute. reflexivity.
  - discriminate.
  - apply Hfail.
Defined.

(** A join envelope whose room is a non-empty array or object ends the
    handler with [TypeError] (the value cannot be a dictionary key): no
    reply is sent and the registry is left as it is, so the connection
    stays in the room it had joined. *)
Theorem join_unhashable_room ws (l : local) items (rs : registry) :
  at_pc l = Receiving →
  dict_get "action" items = JStr "join" →
  (∃ x xs, dict_get "room" items = JArr (x :: xs)) ∨
    (∃ x xs, dict_get "room" items = JObj (x :: xs)) →
  handle_client ws (Frame (Parsed (JObj items))) rs l =
    Some (rs, Local (dict_get "room" items) (Finished (Some TypeError)), []).
Proof.
  intros Hpc Ha Hroom. unfold handle_client.
  rewrite Hpc, on_frame_join by done. unfold on_join, raise.
  destruct Hroom as [(x & xs & ->) | (x & xs & ->)]; reflexivity.
Qed.

Lemma join_unhashable_room_witness :
  let rs := rooms (config_of pair_in_r1) in
  handle_client 1
    (Frame (Parsed (JObj [("action", JStr "join"); ("room", JArr [JInt 1])])))
    rs (Local (JStr "r1") Receiving) =
  Some (rs, Local (JArr [JInt 1]) (Finished (Some TypeError)), []).
Proof.
  intros rs.
  apply (join_unhashable_room 1 (Local (JStr "r1") Receiving)
           [("action", JStr "join"); ("room", JArr [JInt 1])] rs).
  - reflexivity.
  - reflexivity.
  - left. by exists (JInt 1), [].
Defined.
